(** * AMQP-CPP [OutBuffer]: a fixed-capacity, append-only output buffer

    Shallow embedding of [include/outbuffer.h].  The class owns one array
    obtained from [new char[capacity]], keeps a cursor into it and a count of
    the bytes written, and offers a family of [add] overloads that [memcpy]
    their operand at the cursor.  Memory is modelled as a heap of blocks so
    that copy construction (a second block) and move construction (the same
    block, handed over) can be told apart. *)

From stdpp Require Import gmap list.

Local Open Scope Z_scope.

(** ** The host platform *)

(** Two properties of the host are visible in the bytes the class produces:
    the byte order of scalar objects and the width of [size_t]. *)
Inductive byte_order := LittleEndian | BigEndian.
Inductive data_model := ILP32 | LP64.

Record host := Host { host_order : byte_order; host_model : data_model }.

Definition size_t_bits (hw : host) : Z :=
  match host_model hw with ILP32 => 32 | LP64 => 64 end.

(** ** Fixed-width integers *)

(** Conversion to an unsigned type of [bits] bits. *)
Definition wrap (bits : Z) (x : Z) : Z := x mod 2 ^ bits.

(** Conversion of an unsigned [bits]-bit value to the signed type of the same
    width (two's complement). *)
Definition to_signed (bits : Z) (u : Z) : Z :=
  if u <? 2 ^ (bits - 1) then u else u - 2 ^ bits.

(** ** Byte sequences of scalars *)

(** Bytes are integers in [0, 256). *)
Definition is_byte (b : Z) : Prop := 0 <= b < 256.

(** Little-endian encoding of the low [n] bytes of [x], and its decoding. *)
Fixpoint le_bytes (n : nat) (x : Z) : list Z :=
  match n with
  | O => []
  | S n' => x mod 256 :: le_bytes n' (x / 256)
  end.

Fixpoint le_value (bs : list Z) : Z :=
  match bs with
  | [] => 0
  | b :: bs' => b + 256 * le_value bs'
  end.

(** Big-endian (network order) encoding: most significant byte first. *)
Fixpoint be_bytes (n : nat) (x : Z) : list Z :=
  match n with
  | O => []
  | S n' => (x / 256 ^ Z.of_nat n') mod 256 :: be_bytes n' x
  end.

(** Reading a byte sequence as a big-endian integer. *)
Definition be_value (bs : list Z) : Z :=
  fold_left (fun acc b => acc * 256 + b) bs 0.

(** The object representation of an [n]-byte scalar with bit pattern [x], as
    [memcpy] from its address sees it.  Negative [x] gives the two's
    complement pattern. *)
Definition object_bytes (hw : host) (n : nat) (x : Z) : list Z :=
  match host_order hw with
  | LittleEndian => le_bytes n x
  | BigEndian => be_bytes n x
  end.

(** The scalar whose object representation is [bs]. *)
Definition object_value (hw : host) (bs : list Z) : Z :=
  match host_order hw with
  | LittleEndian => le_value bs
  | BigEndian => be_value bs
  end.

(** Modelled from the spec: [endian.h], which supplies [htobe16], [htobe32]
    and [htobe64], is not among the sources.  The specification describes the
    transform as "host order -> big-endian (network order)": the result is the
    host integer whose bytes in memory are the big-endian bytes of the
    argument. *)
Definition htobe (hw : host) (n : nat) (x : Z) : Z :=
  object_value hw (be_bytes n x).

Definition htobe16 (hw : host) := htobe hw 2.
Definition htobe32 (hw : host) := htobe hw 4.
Definition htobe64 (hw : host) := htobe hw 8.

(** ** Memory *)

Definition block := positive.

(** A [char*]: null, or an offset into a block. *)
Inductive pointer := Null | Ptr (b : block) (off : Z).

(** A [char] in memory is either indeterminate (never written) or a byte. *)
Abbreviation cell := (option Z).
Abbreviation heap := (gmap block (list cell)).

(** Pointer arithmetic [p + n].  On the null pointer only [n = 0] is defined
    in C++ and gives null; the class never reaches another case without
    having called [memcpy] on null first. *)
Definition ptr_add (p : pointer) (n : Z) : pointer :=
  match p with
  | Null => Null
  | Ptr b off => Ptr b (off + n)
  end.

(** [new char[n]]: a fresh block of [n] indeterminate cells.  Allocation
    failure ([std::bad_alloc]) is not modelled. *)
Definition new_array (n : Z) (h : heap) : block * heap :=
  let b := fresh (dom h) in
  (b, <[b := replicate (Z.to_nat n) None]> h).

(** [delete[]] of a block; releasing a block that is not live is undefined. *)
Definition delete_array (b : block) (h : heap) : option heap :=
  match h !! b with
  | Some _ => Some (delete b h)
  | None => None
  end.

(** What can be read starting at [p]: the cells from [p] to the end of its
    block. *)
Definition readable (p : pointer) (h : heap) : option (list cell) :=
  match p with
  | Null => None
  | Ptr b off =>
      cs ← h !! b;
      if (0 <=? off) && (off <=? Z.of_nat (length cs))
      then Some (drop (Z.to_nat off) cs) else None
  end.

(** The [n] cells at [p]. *)
Definition load (p : pointer) (n : Z) (h : heap) : option (list cell) :=
  cs ← readable p h;
  if (0 <=? n) && (n <=? Z.of_nat (length cs))
  then Some (take (Z.to_nat n) cs) else None.

(** The cells [cs] with [src] written over them from position [off] on. *)
Definition splice (off : nat) (src cs : list cell) : list cell :=
  take off cs ++ src ++ drop (off + length src) cs.

(** Overwrite the cells at [p] with [src]; undefined outside a live block. *)
Definition store (p : pointer) (src : list cell) (h : heap) : option heap :=
  match p with
  | Null => None
  | Ptr b off =>
      cs ← h !! b;
      if (0 <=? off) && (off + Z.of_nat (length src) <=? Z.of_nat (length cs))
      then Some (<[b := splice (Z.to_nat off) src cs]> h)
      else None
  end.

(** [memcpy(dst, src, n)].  The source is given by the cells readable at the
    source address; every source the class passes is disjoint from the
    destination (a local variable, caller memory, or another block).  [None]
    is undefined behaviour: fewer than [n] cells readable at the source or
    writable at the destination. *)
Definition memcpy (dst : pointer) (src : list cell) (n : Z) (h : heap)
  : option heap :=
  if (0 <=? n) && (n <=? Z.of_nat (length src))
  then store dst (take (Z.to_nat n) src) h
  else None.

(** ** The class *)

Record OutBuffer := {
  _buffer : option block;   (* std::unique_ptr<char[]>: null or the owned block *)
  _current : pointer;       (* char *_current *)
  _size : Z;                (* size_t *)
  _capacity : Z             (* size_t *)
}.

(** [std::unique_ptr::get] *)
Definition get (u : option block) : pointer :=
  match u with
  | Some b => Ptr b 0
  | None => Null
  end.

(** A member function: it may update the object and the heap, or be
    undefined. *)
Abbreviation method := (OutBuffer -> heap -> option (OutBuffer * heap)).

(** [OutBuffer(uint32_t capacity)] *)
Definition OutBuffer_new (capacity : Z) (h : heap) : OutBuffer * heap :=
  let '(b, h') := new_array capacity h in
  ({| _buffer := Some b;
      _current := get (Some b);
      _size := 0;
      _capacity := capacity |}, h').

(** [OutBuffer(const OutBuffer &that)] *)
Definition OutBuffer_copy (that : OutBuffer) (h : heap)
  : option (OutBuffer * heap) :=
  let '(b, h1) := new_array (_capacity that) h in
  let this := {| _buffer := Some b;
                 _current := ptr_add (get (Some b)) (_size that);
                 _size := _size that;
                 _capacity := _capacity that |} in
  (* copy memory *)
  src ← readable (get (_buffer that)) h1;
  h2 ← memcpy (get (_buffer this)) src (_size this) h1;
  Some (this, h2).

(** [OutBuffer(OutBuffer &&that)]: returns the new object and what is left
    of [that]. *)
Definition OutBuffer_move (that : OutBuffer) (h : heap)
  : option ((OutBuffer * OutBuffer) * heap) :=
  let this := {| _buffer := _buffer that;
                 _current := _current that;
                 _size := _size that;
                 _capacity := _capacity that |} in
  (* reset the other object; the unique_ptr was emptied by std::move *)
  let that' := {| _buffer := None;
                  _current := Null;
                  _size := 0;
                  _capacity := 0 |} in
  Some ((this, that'), h).

(** [~OutBuffer()]: the [unique_ptr] releases the block it owns, if any. *)
Definition OutBuffer_destroy (this : OutBuffer) (h : heap) : option heap :=
  match _buffer this with
  | Some b => delete_array b h
  | None => Some h
  end.

(** [data()] and [size()] *)
Definition data (this : OutBuffer) : pointer := get (_buffer this).
Definition size (this : OutBuffer) : Z := _size this.

Section Add.
Variable hw : host.

(** The three statements every overload ends with:
    [memcpy(_current, src, n); _current += n; _size += n;] *)
Definition append (src : list Z) (n : Z) : method := fun this h =>
  h' ← memcpy (_current this) (Some <$> src) n h;
  Some ({| _buffer := _buffer this;
           _current := ptr_add (_current this) n;
           _size := wrap (size_t_bits hw) (_size this + n);
           _capacity := _capacity this |}, h').

(** [add(const char *string, uint32_t size)]; [string] stands for the bytes
    readable at the caller's pointer. *)
Definition add (string : list Z) (size : Z) : method :=
  append string size.

(** [std::string::c_str]: the characters followed by a terminating zero. *)
Definition c_str (s : list Z) : list Z := s ++ [0].

(** [add(const std::string &string)]; [string.size()] is a [size_t] passed
    as a [uint32_t]. *)
Definition add_string (s : list Z) : method :=
  add (c_str s) (wrap 32 (Z.of_nat (length s))).

(** [add(uint8_t value)] *)
Definition add_uint8 (value : Z) : method :=
  append (object_bytes hw 1 value) 1.

(** [add(uint16_t value)] *)
Definition add_uint16 (value : Z) : method :=
  let v := htobe16 hw value in
  append (object_bytes hw 2 v) 2.

(** [add(uint32_t value)] *)
Definition add_uint32 (value : Z) : method :=
  let v := htobe32 hw value in
  append (object_bytes hw 4 v) 4.

(** [add(uint64_t value)] *)
Definition add_uint64 (value : Z) : method :=
  let v := htobe64 hw value in
  append (object_bytes hw 8 v) 8.

(** [add(int8_t value)] *)
Definition add_int8 (value : Z) : method :=
  append (object_bytes hw 1 value) 1.

(** [add(int16_t value)]: the argument converts to [uint16_t] for
    [htobe16], and the result converts back to [int16_t]. *)
Definition add_int16 (value : Z) : method :=
  let v := to_signed 16 (htobe16 hw (wrap 16 value)) in
  append (object_bytes hw 2 v) 2.

(** [add(int32_t value)] *)
Definition add_int32 (value : Z) : method :=
  let v := to_signed 32 (htobe32 hw (wrap 32 value)) in
  append (object_bytes hw 4 v) 4.

(** [add(int64_t value)] *)
Definition add_int64 (value : Z) : method :=
  let v := to_signed 64 (htobe64 hw (wrap 64 value)) in
  append (object_bytes hw 8 v) 8.

(** [add(float value)]; an IEEE-754 binary32 object is given by its 32-bit
    pattern, stored in the host's byte order.  No conversion is applied. *)
Definition add_float (value : Z) : method :=
  append (object_bytes hw 4 value) 4.

(** [add(double value)], on the 64-bit pattern. *)
Definition add_double (value : Z) : method :=
  append (object_bytes hw 8 value) 8.
End Add.

(** ** Sequences of appends *)

(** One call of an [add] overload, with its argument. *)
Inductive operand :=
| Raw (string : list Z) (size : Z)
| Str (s : list Z)
| UInt8 (value : Z)
| UInt16 (value : Z)
| UInt32 (value : Z)
| UInt64 (value : Z)
| Int8 (value : Z)
| Int16 (value : Z)
| Int32 (value : Z)
| Int64 (value : Z)
| Float (value : Z)
| Double (value : Z).

(** Overload resolution. *)
Definition add_operand (hw : host) (op : operand) : method :=
  match op with
  | Raw string size => add hw string size
  | Str s => add_string hw s
  | UInt8 v => add_uint8 hw v
  | UInt16 v => add_uint16 hw v
  | UInt32 v => add_uint32 hw v
  | UInt64 v => add_uint64 hw v
  | Int8 v => add_int8 hw v
  | Int16 v => add_int16 hw v
  | Int32 v => add_int32 hw v
  | Int64 v => add_int64 hw v
  | Float v => add_float hw v
  | Double v => add_double hw v
  end.

(** The source and the count each overload hands to [memcpy]. *)
Definition source (hw : host) (op : operand) : list Z :=
  match op with
  | Raw string _ => string
  | Str s => c_str s
  | UInt8 v | Int8 v => object_bytes hw 1 v
  | UInt16 v => object_bytes hw 2 (htobe16 hw v)
  | UInt32 v => object_bytes hw 4 (htobe32 hw v)
  | UInt64 v => object_bytes hw 8 (htobe64 hw v)
  | Int16 v => object_bytes hw 2 (to_signed 16 (htobe16 hw (wrap 16 v)))
  | Int32 v => object_bytes hw 4 (to_signed 32 (htobe32 hw (wrap 32 v)))
  | Int64 v => object_bytes hw 8 (to_signed 64 (htobe64 hw (wrap 64 v)))
  | Float v => object_bytes hw 4 v
  | Double v => object_bytes hw 8 v
  end.

Definition count (op : operand) : Z :=
  match op with
  | Raw _ size => size
  | Str s => wrap 32 (Z.of_nat (length s))
  | UInt8 _ | Int8 _ => 1
  | UInt16 _ | Int16 _ => 2
  | UInt32 _ | Int32 _ | Float _ => 4
  | UInt64 _ | Int64 _ | Double _ => 8
  end.

(** The calls of a sequence, one after the other on the same object. *)
Fixpoint add_all (hw : host) (ops : list operand) : method := fun this h =>
  match ops with
  | [] => Some (this, h)
  | op :: ops' =>
      '(this', h') ← add_operand hw op this h;
      add_all hw ops' this' h'
  end.

(** The encoding table of the specification: what each operand is to put
    in the buffer.  Raw spans and strings verbatim, integers in network
    order (two's complement for the signed ones), floating-point values as
    the host stores them. *)
Definition encoded (hw : host) (op : operand) : list Z :=
  match op with
  | Raw string size => take (Z.to_nat size) string
  | Str s => s
  | UInt8 v | Int8 v => be_bytes 1 v
  | UInt16 v | Int16 v => be_bytes 2 v
  | UInt32 v | Int32 v => be_bytes 4 v
  | UInt64 v | Int64 v => be_bytes 8 v
  | Float v => object_bytes hw 4 v
  | Double v => object_bytes hw 8 v
  end.

Definition encoded_size (op : operand) : Z :=
  match op with
  | Raw _ size => size
  | Str s => Z.of_nat (length s)
  | UInt8 _ | Int8 _ => 1
  | UInt16 _ | Int16 _ => 2
  | UInt32 _ | Int32 _ | Float _ => 4
  | UInt64 _ | Int64 _ | Double _ => 8
  end.

Definition total_size (ops : list operand) : Z :=
  foldr (fun op acc => encoded_size op + acc) 0 ops.

(** A raw span must hold the bytes its length announces. *)
Definition span_ok (op : operand) : Prop :=
  match op with
  | Raw string size => 0 <= size <= Z.of_nat (length string)
  | _ => True
  end.

(** The bytes appended so far: the first [size()] cells at [data()]. *)
Definition contents (this : OutBuffer) (h : heap) : option (list cell) :=
  load (data this) (size this) h.

(** ** Programs over several buffers *)

(** The buffers a program holds, by position, and the heap they live in. *)
Record world := World { w_heap : heap; w_vars : list OutBuffer }.

Inductive action :=
| New (capacity : Z)             (* OutBuffer b(capacity);      *)
| Copy (i : nat)                 (* OutBuffer b(vars[i]);       *)
| Move (i : nat)                 (* OutBuffer b(std::move(vars[i])); *)
| AddTo (i : nat) (op : operand). (* vars[i].add(op);            *)

Definition step (hw : host) (a : action) (w : world) : option world :=
  match a with
  | New capacity =>
      let '(b, h) := OutBuffer_new capacity (w_heap w) in
      Some (World h (w_vars w ++ [b]))
  | Copy i =>
      that ← w_vars w !! i;
      '(b, h) ← OutBuffer_copy that (w_heap w);
      Some (World h (w_vars w ++ [b]))
  | Move i =>
      that ← w_vars w !! i;
      '(b, that', h) ← OutBuffer_move that (w_heap w);
      Some (World h (<[i := that']> (w_vars w) ++ [b]))
  | AddTo i op =>
      this ← w_vars w !! i;
      '(this', h) ← add_operand hw op this (w_heap w);
      Some (World h (<[i := this']> (w_vars w)))
  end.

Fixpoint run (hw : host) (acts : list action) (w : world) : option world :=
  match acts with
  | [] => Some w
  | a :: acts' => w' ← step hw a w; run hw acts' w'
  end.

(** Arguments are values of their parameter types. *)
Definition typed (a : action) : Prop :=
  match a with
  | New capacity => 0 <= capacity < 2 ^ 32
  | AddTo _ (Raw _ size) => 0 <= size < 2 ^ 32
  | _ => True
  end.

(** ** Sample data *)

(** The concatenation scenario of the specification: a [uint8_t], a
    [uint32_t], four raw bytes out of a longer span, a [uint16_t] and the
    string "test", fifteen bytes in all. *)
Definition scenario : list operand :=
  [UInt8 1; UInt32 2; Raw [170; 187; 204; 221; 238] 4; UInt16 3;
   Str [116; 101; 115; 116]].

Definition x86_64 : host := Host LittleEndian LP64.
Definition ppc32 : host := Host BigEndian ILP32.

(** A buffer of capacity eight that holds two bytes, in an empty heap. *)
Definition sample_heap : heap :=
  <[1%positive := [Some 0; Some 7; None; None; None; None; None; None]]> ∅.
Definition sample : OutBuffer :=
  {| _buffer := Some 1%positive; _current := Ptr 1%positive 2;
     _size := 2; _capacity := 8 |}.

(** The same buffer after [add(int32_t(-2))]. *)
Definition sample_heap_next : heap :=
  <[1%positive := [Some 0; Some 7; Some 255; Some 255; Some 255; Some 254;
                   None; None]]> ∅.
Definition sample_next : OutBuffer :=
  {| _buffer := Some 1%positive; _current := Ptr 1%positive 6;
     _size := 6; _capacity := 8 |}.

(** IEEE-754 binary32 patterns: 0.0, -0.0, 1.0, a quiet NaN with payload 1,
    the smallest subnormal. *)
Definition binary32_samples : list Z :=
  [0; 2147483648; 1065353216; 2143289345; 1].

(** The same in binary64. *)
Definition binary64_samples : list Z :=
  [0; 9223372036854775808; 4607182418800017408; 9221120237041090561; 1].

(** Its copy, and the heap that holds both. *)
Definition sample_copy : OutBuffer * heap :=
  default (sample, sample_heap) (OutBuffer_copy sample sample_heap).

(** A program that constructs, appends, copies, moves and appends to the
    copy, and the state it ends in. *)
Definition sample_program : list action :=
  [New 4; AddTo 0 (UInt16 7); Copy 0; Move 0; AddTo 1 (Int16 (-1));
   AddTo 2 (Raw [9; 9] 1)].

Definition sample_world : world :=
  default (World ∅ []) (run x86_64 sample_program (World ∅ [])).

(** ** Invariants *)

(** The invariant of the data model. *)
Definition invariant (this : OutBuffer) : Prop :=
  0 <= _size this <= _capacity this
  /\ _current this = ptr_add (data this) (_size this).

(** The invariant together with what the object owns: a live block of
    exactly [_capacity] cells, or nothing at all after it was moved from. *)
Definition buffer_ok (h : heap) (this : OutBuffer) : Prop :=
  invariant this
  /\ _capacity this < 2 ^ 32
  /\ match _buffer this with
     | Some b => exists cs, h !! b = Some cs /\ Z.of_nat (length cs) = _capacity this
     | None => _capacity this = 0
     end.

(** Every buffer of a program owns what it should. *)
Definition world_ok (w : world) : Prop :=
  Forall (buffer_ok (w_heap w)) (w_vars w).

(** A buffer that has not been moved from. *)
Definition live (h : heap) (this : OutBuffer) : Prop :=
  buffer_ok h this /\ is_Some (_buffer this).

(** ** Scope exit *)

(** The blocks the buffers of a program own, in declaration order. *)
Definition owned (vars : list OutBuffer) : list block := omap _buffer vars.

(** Destructors, one buffer after the other. *)
Fixpoint destroy_each (vars : list OutBuffer) (h : heap) : option heap :=
  match vars with
  | [] => Some h
  | this :: vars' => h' ← OutBuffer_destroy this h; destroy_each vars' h'
  end.

(** At the end of a scope the buffers are destroyed in reverse order of
    declaration. *)
Definition leave_scope (w : world) : option heap :=
  destroy_each (reverse (w_vars w)) (w_heap w).

(** The buffer a step writes to or empties, if any. *)
Definition target (a : action) : option nat :=
  match a with
  | New _ | Copy _ => None
  | Move i | AddTo i _ => Some i
  end.

(** No block has two owners, and every block of the heap has one. *)
Definition ownership (w : world) : Prop :=
  NoDup (owned (w_vars w))
  /\ forall b, b ∈ owned (w_vars w) <-> is_Some (w_heap w !! b).

(** * Properties *)

(** ** Byte order *)

Lemma pow256_pos (n : nat) : 0 < 256 ^ Z.of_nat n.
Proof. apply Z.pow_pos_nonneg; lia. Qed.

Lemma pow256_succ (n : nat) : 256 ^ Z.of_nat (S n) = 256 * 256 ^ Z.of_nat n.
Proof. rewrite Nat2Z.inj_succ, Z.pow_succ_r by lia. reflexivity. Qed.

Lemma le_bytes_length n x : length (le_bytes n x) = n.
Proof. revert x. induction n as [|n IH]; intros x; simpl; [|rewrite IH]; done. Qed.

Lemma be_bytes_length n x : length (be_bytes n x) = n.
Proof. induction n as [|n IH]; simpl; [|rewrite IH]; done. Qed.

Lemma le_bytes_is_byte n x : Forall is_byte (le_bytes n x).
Proof.
  revert x. induction n as [|n IH]; intros x; simpl; constructor; [|apply IH].
  unfold is_byte. apply Z.mod_pos_bound. lia.
Qed.

Lemma be_bytes_is_byte n x : Forall is_byte (be_bytes n x).
Proof.
  induction n as [|n IH]; simpl; constructor; [|apply IH].
  unfold is_byte. apply Z.mod_pos_bound. lia.
Qed.

Lemma le_value_range bs :
  Forall is_byte bs -> 0 <= le_value bs < 256 ^ Z.of_nat (length bs).
Proof.
  induction 1 as [|b bs Hb _ IH]; [simpl; lia|].
  cbn [le_value length]. rewrite pow256_succ. unfold is_byte in Hb. lia.
Qed.

(** Encoding then decoding keeps the low [n] bytes. *)
Lemma le_value_le_bytes n x : le_value (le_bytes n x) = x mod 256 ^ Z.of_nat n.
Proof.
  revert x. induction n as [|n IH]; intros x.
  - simpl. rewrite Z.mod_1_r. reflexivity.
  - cbn [le_bytes le_value]. rewrite IH, pow256_succ.
    rewrite Z.rem_mul_r by (pose proof (pow256_pos n); lia). reflexivity.
Qed.

Lemma le_bytes_le_value bs :
  Forall is_byte bs -> le_bytes (length bs) (le_value bs) = bs.
Proof.
  induction 1 as [|b bs Hb _ IH]; [reflexivity|].
  unfold is_byte in Hb. cbn [length le_bytes le_value]. f_equal.
  - rewrite (Z.mul_comm 256), Z.mod_add by lia. apply Z.mod_small; lia.
  - rewrite (Z.mul_comm 256), Z.div_add by lia.
    rewrite Z.div_small by lia. exact IH.
Qed.

Lemma be_value_cons b bs :
  be_value (b :: bs) = b * 256 ^ Z.of_nat (length bs) + be_value bs.
Proof.
  unfold be_value. cbn [fold_left]. rewrite Z.mul_0_l, Z.add_0_l.
  generalize b as acc. induction bs as [|c bs IH]; intros acc.
  - simpl. lia.
  - cbn [fold_left length]. rewrite IH, (IH (0 * 256 + c)), pow256_succ. lia.
Qed.

Lemma be_value_range bs :
  Forall is_byte bs -> 0 <= be_value bs < 256 ^ Z.of_nat (length bs).
Proof.
  induction 1 as [|b bs Hb _ IH]; [unfold be_value; simpl; lia|].
  rewrite be_value_cons. cbn [length]. rewrite pow256_succ.
  unfold is_byte in Hb. nia.
Qed.

Lemma be_value_be_bytes n x : be_value (be_bytes n x) = x mod 256 ^ Z.of_nat n.
Proof.
  induction n as [|n IH].
  - simpl. rewrite Z.mod_1_r. reflexivity.
  - cbn [be_bytes]. rewrite be_value_cons, be_bytes_length, IH, pow256_succ.
    pose proof (pow256_pos n).
    rewrite (Z.mul_comm 256), Z.rem_mul_r by lia. lia.
Qed.

(** Only the low [n] bytes of the argument matter. *)
Lemma be_bytes_mod n m x :
  (n <= m)%nat -> be_bytes n (x mod 256 ^ Z.of_nat m) = be_bytes n x.
Proof.
  intros Hnm. induction n as [|n IH]; [reflexivity|].
  cbn [be_bytes]. rewrite IH by lia. f_equal.
  pose proof (pow256_pos n). pose proof (pow256_pos m).
  set (k := 256 ^ (Z.of_nat m - Z.of_nat n - 1)).
  assert (Hm : 256 ^ Z.of_nat m = 256 ^ Z.of_nat n * (256 * k)).
  { unfold k. rewrite <- (Z.pow_succ_r 256), <- Z.pow_add_r by lia. f_equal. lia. }
  assert (E : x / 256 ^ Z.of_nat n
              = (x mod 256 ^ Z.of_nat m) / 256 ^ Z.of_nat n
                + (x / 256 ^ Z.of_nat m * k) * 256).
  { rewrite <- Z.div_add by lia. f_equal.
    pose proof (Z.div_mod x (256 ^ Z.of_nat m)) as D. rewrite Hm in D |- *. lia. }
  rewrite E, Z.mod_add by lia. reflexivity.
Qed.

Lemma le_bytes_mod n m x :
  (n <= m)%nat -> le_bytes n (x mod 256 ^ Z.of_nat m) = le_bytes n x.
Proof.
  revert m x. induction n as [|n IH]; intros m x Hnm; [reflexivity|].
  destruct m as [|m]; [lia|].
  cbn [le_bytes]. rewrite pow256_succ. pose proof (pow256_pos m).
  rewrite Z.rem_mul_r by lia. f_equal.
  - rewrite (Z.mul_comm 256), Z.mod_add by lia. apply Z.mod_mod. lia.
  - rewrite (Z.mul_comm 256), Z.div_add by lia.
    rewrite (Z.div_small (x mod 256)) by (apply Z.mod_pos_bound; lia).
    rewrite Z.add_0_l. apply IH. lia.
Qed.

Lemma be_bytes_be_value bs :
  Forall is_byte bs -> be_bytes (length bs) (be_value bs) = bs.
Proof.
  induction 1 as [|b bs Hb Hbs IH]; [reflexivity|].
  unfold is_byte in Hb. pose proof (be_value_range bs Hbs) as Hr.
  pose proof (pow256_pos (length bs)) as Hp.
  cbn [length be_bytes]. rewrite be_value_cons. f_equal.
  - rewrite Z.div_add_l by lia. rewrite Z.div_small by lia.
    rewrite Z.add_0_r. apply Z.mod_small; lia.
  - rewrite <- (be_bytes_mod (length bs) (length bs)) by lia.
    rewrite Z.add_comm, Z.mod_add by lia.
    rewrite Z.mod_small by lia. exact IH.
Qed.

Lemma object_bytes_length hw n x : length (object_bytes hw n x) = n.
Proof.
  unfold object_bytes. destruct (host_order hw);
    [apply le_bytes_length | apply be_bytes_length].
Qed.

Lemma object_bytes_is_byte hw n x : Forall is_byte (object_bytes hw n x).
Proof.
  unfold object_bytes. destruct (host_order hw);
    [apply le_bytes_is_byte | apply be_bytes_is_byte].
Qed.

(** Storing a scalar and reading it back in host order gives its low [n]
    bytes. *)
Lemma object_value_object_bytes hw n x :
  object_value hw (object_bytes hw n x) = x mod 256 ^ Z.of_nat n.
Proof.
  unfold object_value, object_bytes. destruct (host_order hw);
    [apply le_value_le_bytes | apply be_value_be_bytes].
Qed.

Lemma object_bytes_object_value hw bs :
  Forall is_byte bs -> object_bytes hw (length bs) (object_value hw bs) = bs.
Proof.
  unfold object_value, object_bytes. destruct (host_order hw);
    [apply le_bytes_le_value | apply be_bytes_be_value].
Qed.

(** Scalars that agree on their low [n] bytes have the same representation. *)
Lemma object_bytes_congr hw n x y :
  x mod 256 ^ Z.of_nat n = y mod 256 ^ Z.of_nat n ->
  object_bytes hw n x = object_bytes hw n y.
Proof.
  intros E. unfold object_bytes. destruct (host_order hw).
  - rewrite <- (le_bytes_mod n n x), <- (le_bytes_mod n n y) by lia. by rewrite E.
  - rewrite <- (be_bytes_mod n n x), <- (be_bytes_mod n n y) by lia. by rewrite E.
Qed.

(** [htobe] followed by a copy of the object yields network order, whatever
    the host. *)
Lemma object_bytes_htobe hw n x : object_bytes hw n (htobe hw n x) = be_bytes n x.
Proof.
  unfold htobe. rewrite <- (be_bytes_length n x) at 1.
  apply object_bytes_object_value, be_bytes_is_byte.
Qed.

Lemma htobe_range hw n x : 0 <= htobe hw n x < 256 ^ Z.of_nat n.
Proof.
  unfold htobe, object_value.
  pose proof (be_bytes_is_byte n x) as Hb.
  pose proof (le_value_range _ Hb) as Hl. pose proof (be_value_range _ Hb) as Hr.
  rewrite be_bytes_length in Hl, Hr. destruct (host_order hw); assumption.
Qed.

Lemma to_signed_mod bits u : 0 <= bits -> to_signed bits u mod 2 ^ bits = u mod 2 ^ bits.
Proof.
  intros Hb. unfold to_signed. destruct (u <? 2 ^ (bits - 1)); [reflexivity|].
  assert (0 < 2 ^ bits) by (apply Z.pow_pos_nonneg; lia).
  replace (u - 2 ^ bits) with (u + (-1) * 2 ^ bits) by lia.
  apply Z.mod_add. lia.
Qed.

(** The signed detour of the signed overloads does not change the bytes. *)
Lemma object_bytes_signed hw n x :
  object_bytes hw n (to_signed (8 * Z.of_nat n) (htobe hw n (wrap (8 * Z.of_nat n) x)))
  = object_bytes hw n (htobe hw n x).
Proof.
  assert (E : 2 ^ (8 * Z.of_nat n) = 256 ^ Z.of_nat n).
  { rewrite Z.pow_mul_r by lia. reflexivity. }
  transitivity (object_bytes hw n (htobe hw n (wrap (8 * Z.of_nat n) x))).
  - apply object_bytes_congr. rewrite <- E. apply to_signed_mod. lia.
  - unfold htobe, wrap. rewrite E, be_bytes_mod by lia. reflexivity.
Qed.

(** ** Memory *)

Section Splice.
Context (off : nat) (src cs : list cell).
Hypothesis Hfit : (off + length src <= length cs)%nat.

Lemma length_splice : length (splice off src cs) = length cs.
Proof.
  unfold splice. rewrite !length_app, length_take, length_drop. lia.
Qed.

Lemma take_splice k : (k <= off)%nat -> take k (splice off src cs) = take k cs.
Proof.
  intros Hk. unfold splice.
  rewrite take_app_le by (rewrite length_take; lia).
  rewrite take_take. f_equal. lia.
Qed.

Lemma take_splice_end :
  take (off + length src) (splice off src cs) = take off cs ++ src.
Proof.
  unfold splice. rewrite app_assoc, take_app_le.
  - apply take_ge. rewrite length_app, length_take. lia.
  - rewrite length_app, length_take. lia.
Qed.

Lemma drop_splice :
  take (length src) (drop off (splice off src cs)) = src.
Proof.
  unfold splice. rewrite drop_app_ge by (rewrite length_take; lia).
  rewrite length_take. replace (off - off `min` length cs)%nat with 0%nat by lia.
  rewrite drop_0. rewrite take_app_le by lia. apply take_ge. lia.
Qed.
End Splice.

Lemma splice_nil off cs : splice off [] cs = cs.
Proof.
  unfold splice. cbn [length app]. rewrite Nat.add_0_r. apply take_drop.
Qed.

Lemma store_Some p src h h' :
  store p src h = Some h' ->
  exists b off cs,
    p = Ptr b off /\ h !! b = Some cs /\ 0 <= off
    /\ off + Z.of_nat (length src) <= Z.of_nat (length cs)
    /\ h' = <[b := splice (Z.to_nat off) src cs]> h.
Proof.
  destruct p as [|b off]; [discriminate|]. unfold store.
  destruct (h !! b) as [cs|] eqn:Hb; [|discriminate]. cbn [mbind option_bind].
  destruct (0 <=? off) eqn:H0; [|discriminate].
  destruct (off + Z.of_nat (length src) <=? Z.of_nat (length cs)) eqn:H1;
    [|discriminate].
  cbn [andb]. intros [= <-]. exists b, off, cs. repeat split; try done; lia.
Qed.

(** Bounds checks that hold: decide each [<=?] of the goal by [lia]. *)
Ltac in_bounds :=
  repeat match goal with
         | |- context [?a <=? ?b] => destruct (Z.leb_spec a b); [|lia]
         end;
  cbn [andb].

Lemma store_fits b off cs src h :
  h !! b = Some cs -> 0 <= off ->
  off + Z.of_nat (length src) <= Z.of_nat (length cs) ->
  store (Ptr b off) src h = Some (<[b := splice (Z.to_nat off) src cs]> h).
Proof.
  intros Hb H0 H1. unfold store. rewrite Hb. cbn [mbind option_bind].
  in_bounds. reflexivity.
Qed.

Lemma memcpy_Some dst src n h h' :
  memcpy dst src n h = Some h' ->
  0 <= n <= Z.of_nat (length src)
  /\ store dst (take (Z.to_nat n) src) h = Some h'.
Proof.
  unfold memcpy.
  destruct (Z.leb_spec 0 n); [|discriminate].
  destruct (Z.leb_spec n (Z.of_nat (length src))); [|discriminate].
  cbn [andb]. intros ->. split; [lia | reflexivity].
Qed.

Lemma memcpy_fits dst src n h :
  0 <= n <= Z.of_nat (length src) ->
  memcpy dst src n h = store dst (take (Z.to_nat n) src) h.
Proof.
  intros Hn. unfold memcpy. in_bounds. reflexivity.
Qed.

Lemma load_fits b off n cs h :
  h !! b = Some cs -> 0 <= off -> 0 <= n ->
  off + n <= Z.of_nat (length cs) ->
  load (Ptr b off) n h = Some (take (Z.to_nat n) (drop (Z.to_nat off) cs)).
Proof.
  intros Hb H0 Hn H1. unfold load, readable. rewrite Hb. cbn [mbind option_bind].
  in_bounds. cbn [mbind option_bind]. rewrite length_drop.
  in_bounds. reflexivity.
Qed.

(** ** One append *)

Lemma size_t_bits_ge hw : 2 ^ 32 <= 2 ^ size_t_bits hw.
Proof. unfold size_t_bits. destruct (host_model hw); [reflexivity | discriminate]. Qed.

Lemma wrap_small bits x : 0 <= x < 2 ^ bits -> wrap bits x = x.
Proof. intros Hx. unfold wrap. apply Z.mod_small. exact Hx. Qed.

(** A buffer that satisfies its invariant has its cursor in its own block. *)
Lemma live_cursor h this :
  live h this ->
  exists b cs,
    _buffer this = Some b /\ _current this = Ptr b (_size this)
    /\ h !! b = Some cs /\ Z.of_nat (length cs) = _capacity this
    /\ 0 <= _size this <= _capacity this /\ _capacity this < 2 ^ 32.
Proof.
  intros [([Hsz Hcur] & Hcap & Hown) [b Hb]].
  unfold data in Hcur. rewrite Hb in Hown, Hcur. destruct Hown as (cs & Hcs & Hlen).
  exists b, cs. cbn [get ptr_add] in Hcur. rewrite Z.add_0_l in Hcur. done.
Qed.

(** What a defined append did.  The call was within the remaining capacity,
    the object advanced by [n], and the block received the first [n] source
    bytes at the old cursor. *)
Lemma append_inv hw src n this h this' h' :
  buffer_ok h this ->
  append hw src n this h = Some (this', h') ->
  exists b cs,
    _buffer this = Some b /\ h !! b = Some cs
    /\ Z.of_nat (length cs) = _capacity this
    /\ 0 <= _size this <= _capacity this /\ _capacity this < 2 ^ 32
    /\ 0 <= n <= Z.of_nat (length src) /\ _size this + n <= _capacity this
    /\ this' = {| _buffer := Some b; _current := Ptr b (_size this + n);
                  _size := _size this + n; _capacity := _capacity this |}
    /\ h' = <[b := splice (Z.to_nat (_size this))
                          (Some <$> take (Z.to_nat n) src) cs]> h.
Proof.
  intros Hok. unfold append.
  destruct (memcpy _ _ _ _) as [h1|] eqn:Hm; [|discriminate].
  cbn [mbind option_bind]. intros [= <- <-].
  apply memcpy_Some in Hm as [Hn Hst].
  rewrite <- fmap_take in Hst.
  apply store_Some in Hst as (b & off & cs & Hcur & Hcs & Hoff & Hfit & ->).
  destruct Hok as ([Hsz Hinv] & Hcap & Hown).
  rewrite Hcur in Hinv. unfold data in Hinv.
  destruct (_buffer this) as [b0|] eqn:Hb; [|discriminate].
  cbn [get ptr_add] in Hinv. injection Hinv as -> ->.
  destruct Hown as (cs0 & Hcs0 & Hlen). rewrite Hcs in Hcs0. injection Hcs0 as <-.
  rewrite length_fmap, length_take in Hfit. rewrite length_fmap in Hn.
  exists b0, cs. rewrite Hcur. cbn [ptr_add]. rewrite Z.add_0_l in *.
  pose proof (size_t_bits_ge hw).
  rewrite wrap_small by lia. repeat split; try done; lia.
Qed.

(** An append within the remaining capacity of a live buffer is defined. *)
Lemma append_fits hw src n this h :
  live h this ->
  0 <= n <= Z.of_nat (length src) ->
  _size this + n <= _capacity this ->
  is_Some (append hw src n this h).
Proof.
  intros Hlive Hn Hfit.
  destruct (live_cursor _ _ Hlive) as (b & cs & Hb & Hcur & Hcs & Hlen & Hsz & Hcap).
  unfold append. rewrite Hcur, memcpy_fits by (rewrite length_fmap; lia).
  erewrite store_fits; [eexists; reflexivity| exact Hcs | lia |].
  rewrite length_take, length_fmap. lia.
Qed.

(** A defined append leaves a live buffer behind. *)
Lemma append_live hw src n this h this' h' :
  buffer_ok h this ->
  append hw src n this h = Some (this', h') ->
  live h' this'.
Proof.
  intros Hok Happ.
  destruct (append_inv _ _ _ _ _ _ _ Hok Happ)
    as (b & cs & Hb & Hcs & Hlen & Hsz & Hcap & Hn & Hfit & -> & ->).
  split; [|eexists; reflexivity].
  repeat split; cbn; try lia; try (f_equal; lia).
  eexists. rewrite lookup_insert_eq. split; [reflexivity|].
  rewrite length_splice; [exact Hlen|].
  rewrite length_fmap, length_take. lia.
Qed.

(** Other blocks are untouched, and every block keeps its length. *)
Lemma append_frame hw src n this h this' h' :
  buffer_ok h this ->
  append hw src n this h = Some (this', h') ->
  (forall b, _buffer this <> Some b -> h' !! b = h !! b)
  /\ (forall b cs, h !! b = Some cs ->
        exists cs', h' !! b = Some cs' /\ length cs' = length cs)
  /\ dom h' = dom h.
Proof.
  intros Hok Happ.
  destruct (append_inv _ _ _ _ _ _ _ Hok Happ)
    as (b & cs & Hb & Hcs & Hlen & Hsz & Hcap & Hn & Hfit & -> & ->).
  rewrite Hb. split; [|split].
  - intros b' Hne. apply lookup_insert_ne. congruence.
  - intros b' cs' Hb'. destruct (decide (b = b')) as [<-|Hne].
    + rewrite lookup_insert_eq. eexists. split; [reflexivity|].
      rewrite Hcs in Hb'. injection Hb' as <-.
      apply length_splice. rewrite length_fmap, length_take. lia.
    + rewrite lookup_insert_ne by done. eauto.
  - apply dom_insert_lookup_L. rewrite Hcs. eexists. reflexivity.
Qed.

(** The bytes written so far stay, and the new ones follow them. *)
Lemma append_contents hw src n this h this' h' :
  buffer_ok h this ->
  append hw src n this h = Some (this', h') ->
  exists old,
    contents this h = Some old
    /\ contents this' h' = Some (old ++ (Some <$> take (Z.to_nat n) src))
    /\ load (_current this) n h' = Some (Some <$> take (Z.to_nat n) src).
Proof.
  intros Hok Happ.
  destruct (append_inv _ _ _ _ _ _ _ Hok Happ)
    as (b & cs & Hb & Hcs & Hlen & Hsz & Hcap & Hn & Hfit & -> & ->).
  assert (Hcur : _current this = Ptr b (_size this)).
  { destruct Hok as ([_ Hc] & _). rewrite Hc. unfold data. rewrite Hb.
    reflexivity. }
  set (new := Some <$> take (Z.to_nat n) src).
  assert (Hnew : length new = Z.to_nat n).
  { unfold new. rewrite length_fmap, length_take. lia. }
  assert (Hsp : (Z.to_nat (_size this) + length new <= length cs)%nat) by lia.
  exists (take (Z.to_nat (_size this)) cs). unfold contents, data, size.
  cbn [_buffer _size]. rewrite Hb, Hcur. cbn [get]. split; [|split].
  - rewrite (load_fits b 0 _ cs) by (try done; lia). by rewrite drop_0.
  - erewrite load_fits; [|apply lookup_insert_eq|lia|lia|rewrite length_splice; lia].
    rewrite drop_0. f_equal.
    replace (Z.to_nat (_size this + n)) with (Z.to_nat (_size this) + length new)%nat by lia.
    by apply take_splice_end.
  - erewrite load_fits; [|apply lookup_insert_eq|lia|lia|rewrite length_splice; lia].
    f_equal. rewrite <- Hnew. by apply drop_splice.
Qed.

(** No prefix of the bytes written so far is disturbed. *)
Lemma append_prefix hw src n this h this' h' :
  buffer_ok h this ->
  append hw src n this h = Some (this', h') ->
  forall k, 0 <= k <= _size this ->
    load (data this) k h' = load (data this) k h.
Proof.
  intros Hok Happ k Hk.
  destruct (append_inv _ _ _ _ _ _ _ Hok Happ)
    as (b & cs & Hb & Hcs & Hlen & Hsz & Hcap & Hn & Hfit & -> & ->).
  assert (Hsp : (Z.to_nat (_size this) + length (Some <$> take (Z.to_nat n) src)
                 <= length cs)%nat).
  { rewrite length_fmap, length_take. lia. }
  unfold data. rewrite Hb. cbn [get].
  rewrite (load_fits b 0 k cs h) by (try done; lia).
  erewrite load_fits; [|apply lookup_insert_eq|lia|lia|rewrite length_splice; lia].
  rewrite !drop_0. f_equal. apply take_splice; [done|lia].
Qed.

(** ** The overloads *)

(** Every overload is the common tail applied to its source and count. *)
Lemma add_operand_append hw op :
  add_operand hw op = append hw (source hw op) (count op).
Proof. destruct op; reflexivity. Qed.

Lemma be_bytes_1 x : be_bytes 1 x = [x mod 256].
Proof. cbn [be_bytes]. change (256 ^ Z.of_nat 0) with 1. by rewrite Z.div_1_r. Qed.

Lemma object_bytes_1 hw x : object_bytes hw 1 x = be_bytes 1 x.
Proof. rewrite be_bytes_1. unfold object_bytes. destruct (host_order hw); [done|]. apply be_bytes_1. Qed.

Lemma take_all {A} (l : list A) n : n = length l -> take n l = l.
Proof. intros ->. apply firstn_all. Qed.

(** Within 32 bits, what the overload copies is the encoding the table
    prescribes. *)
Lemma source_encoded hw op :
  span_ok op -> encoded_size op < 2 ^ 32 ->
  count op = encoded_size op
  /\ 0 <= count op <= Z.of_nat (length (source hw op))
  /\ take (Z.to_nat (count op)) (source hw op) = encoded hw op.
Proof.
  intros Hspan Hlt.
  destruct op as [string n|s|v|v|v|v|v|v|v|v|v|v];
    cbn [span_ok encoded_size count source encoded] in *;
    rewrite ?object_bytes_length;
    try (split; [reflexivity|split; [lia|]]).
  - done.
  - rewrite wrap_small by lia. unfold c_str. rewrite length_app. cbn [length].
    split; [reflexivity|split; [lia|]].
    rewrite Nat2Z.id. by rewrite take_app_length.
  - rewrite take_all by (by rewrite object_bytes_length). apply object_bytes_1.
  - rewrite take_all by (by rewrite object_bytes_length). apply object_bytes_htobe.
  - rewrite take_all by (by rewrite object_bytes_length). apply object_bytes_htobe.
  - rewrite take_all by (by rewrite object_bytes_length). apply object_bytes_htobe.
  - rewrite take_all by (by rewrite object_bytes_length). apply object_bytes_1.
  - rewrite take_all by (by rewrite object_bytes_length).
    etrans; [apply (object_bytes_signed hw 2)|apply object_bytes_htobe].
  - rewrite take_all by (by rewrite object_bytes_length).
    etrans; [apply (object_bytes_signed hw 4)|apply object_bytes_htobe].
  - rewrite take_all by (by rewrite object_bytes_length).
    etrans; [apply (object_bytes_signed hw 8)|apply object_bytes_htobe].
  - by rewrite take_all by (by rewrite object_bytes_length).
  - by rewrite take_all by (by rewrite object_bytes_length).
Qed.

Lemma encoded_length hw op :
  span_ok op -> Z.of_nat (length (encoded hw op)) = encoded_size op.
Proof.
  destruct op; cbn [span_ok encoded encoded_size];
    rewrite ?be_bytes_length, ?object_bytes_length, ?length_take; lia.
Qed.

(** ** Construction *)

Lemma fresh_block_dead (h : heap) : h !! fresh (dom h) = None.
Proof. apply not_elem_of_dom, is_fresh. Qed.

Lemma live_block_not_fresh (h : heap) b cs : h !! b = Some cs -> b <> fresh (dom h).
Proof. intros Hb ->. rewrite fresh_block_dead in Hb. discriminate. Qed.

(** Blocks that keep their length keep their owners happy. *)
Lemma buffer_ok_mono h h' this :
  (forall b cs, h !! b = Some cs ->
     exists cs', h' !! b = Some cs' /\ length cs' = length cs) ->
  buffer_ok h this -> buffer_ok h' this.
Proof.
  intros Hmono (Hinv & Hcap & Hown). repeat split; try apply Hinv; try done.
  destruct (_buffer this) as [b|]; [|done].
  destruct Hown as (cs & Hcs & Hlen).
  destruct (Hmono _ _ Hcs) as (cs' & Hcs' & Hlen'). exists cs'. split; [done|lia].
Qed.

Lemma new_array_mono n h b cs :
  h !! b = Some cs ->
  exists cs', (new_array n h).2 !! b = Some cs' /\ length cs' = length cs.
Proof.
  intros Hb. exists cs. split; [|done]. cbn.
  rewrite lookup_insert_ne; [done|]. symmetry. by eapply live_block_not_fresh.
Qed.

Lemma OutBuffer_new_live capacity h :
  0 <= capacity < 2 ^ 32 ->
  live (OutBuffer_new capacity h).2 (OutBuffer_new capacity h).1
  /\ contents (OutBuffer_new capacity h).1 (OutBuffer_new capacity h).2 = Some [].
Proof.
  intros Hc. unfold OutBuffer_new, new_array. cbn [fst snd]. split.
  - split; [|eexists; reflexivity]. repeat split; cbn; try lia.
    eexists. rewrite lookup_insert_eq. split; [reflexivity|].
    rewrite length_replicate. lia.
  - unfold contents, data, size. cbn [_buffer _size get].
    erewrite load_fits; [reflexivity|apply lookup_insert_eq|lia|lia|].
    rewrite length_replicate. lia.
Qed.

(** ** Sequences of appends *)

Lemma total_size_nonneg ops : Forall span_ok ops -> 0 <= total_size ops.
Proof.
  induction 1 as [|op ops Hop _ IH]; [done|].
  cbn [total_size foldr]. fold (total_size ops).
  assert (0 <= encoded_size op); [|lia].
  destruct op; cbn [encoded_size span_ok] in *; lia.
Qed.

(** A sequence that fits runs to its end and appends the concatenation of
    its encodings. *)
Lemma add_all_fits hw ops : forall this h old,
  live h this ->
  contents this h = Some old ->
  Forall span_ok ops ->
  _size this + total_size ops <= _capacity this ->
  exists this' h',
    add_all hw ops this h = Some (this', h')
    /\ live h' this'
    /\ _size this' = _size this + total_size ops
    /\ _capacity this' = _capacity this
    /\ _buffer this' = _buffer this
    /\ contents this' h' = Some (old ++ (Some <$> concat (encoded hw <$> ops))).
Proof.
  induction ops as [|op ops IH]; intros this h old Hlive Hold Hspan Hfit.
  - exists this, h. cbn. rewrite Z.add_0_r, app_nil_r. done.
  - apply Forall_cons in Hspan as [Hop Hspan].
    pose proof (total_size_nonneg _ Hspan) as Hnn.
    cbn [total_size foldr] in Hfit. fold (total_size ops) in Hfit.
    destruct (live_cursor _ _ Hlive) as (b & cs & Hb & _ & _ & _ & Hsz & Hcap).
    destruct (source_encoded hw op Hop) as (Hcnt & Hsrc & Htake); [lia|].
    destruct (append_fits hw (source hw op) (count op) this h Hlive Hsrc)
      as [[this1 h1] Happ]; [lia|].
    pose proof (proj1 Hlive) as Hok.
    pose proof (append_live _ _ _ _ _ _ _ Hok Happ) as Hlive1.
    destruct (append_inv _ _ _ _ _ _ _ Hok Happ)
      as (b' & cs' & Hb' & _ & _ & _ & _ & _ & _ & Hthis1 & _).
    destruct (append_contents _ _ _ _ _ _ _ Hok Happ) as (old' & Hold' & Hnew & _).
    rewrite Hold in Hold'. injection Hold' as <-. rewrite Htake in Hnew.
    destruct (IH this1 h1 _ Hlive1 Hnew Hspan)
      as (this' & h' & Hrun & Hlive' & Hsize' & Hcap' & Hbuf' & Hcont').
    { rewrite Hthis1. cbn. lia. }
    exists this', h'. cbn [add_all]. rewrite add_operand_append, Happ.
    cbn [mbind option_bind]. split; [exact Hrun|]. split; [exact Hlive'|].
    rewrite Hsize', Hcap', Hbuf', Hcont', Hthis1. cbn [_size _capacity _buffer].
    cbn [total_size foldr fmap list_fmap concat]. fold (total_size ops).
    rewrite fmap_app, <- app_assoc, Hcnt, Hb'. repeat split; try done; lia.
Qed.

(** Whatever a defined sequence appends, it stays inside its own block, keeps
    every block's length, and leaves the bytes already written in place. *)
Lemma add_all_frame hw ops : forall this h this' h',
  buffer_ok h this ->
  add_all hw ops this h = Some (this', h') ->
  buffer_ok h' this'
  /\ _buffer this' = _buffer this
  /\ _capacity this' = _capacity this
  /\ _size this <= _size this'
  /\ (forall b, _buffer this <> Some b -> h' !! b = h !! b)
  /\ (forall b cs, h !! b = Some cs ->
        exists cs', h' !! b = Some cs' /\ length cs' = length cs)
  /\ (forall k, 0 <= k <= _size this ->
        load (data this) k h' = load (data this) k h).
Proof.
  induction ops as [|op ops IH]; intros this h this' h' Hok Hrun.
  - cbn in Hrun. injection Hrun as <- <-.
    do 3 (split; [done|]). split; [lia|]. split; [done|]. split; [eauto|done].
  - cbn [add_all] in Hrun. rewrite add_operand_append in Hrun.
    destruct (append _ _ _ _ _) as [[this1 h1]|] eqn:Happ; [|discriminate].
    cbn [mbind option_bind] in Hrun.
    pose proof (append_live _ _ _ _ _ _ _ Hok Happ) as [Hok1 _].
    destruct (append_frame _ _ _ _ _ _ _ Hok Happ) as (Hfr & Hlen & _).
    pose proof (append_prefix _ _ _ _ _ _ _ Hok Happ) as Hpre.
    destruct (append_inv _ _ _ _ _ _ _ Hok Happ)
      as (b & cs & Hb & _ & _ & _ & _ & Hn & _ & Hthis1 & _).
    destruct (IH _ _ _ _ Hok1 Hrun) as (Hok' & Hbuf & Hcp & Hle & Hfr' & Hlen' & Hpre').
    assert (Hbuf1 : _buffer this1 = _buffer this) by (rewrite Hthis1, Hb; done).
    assert (Hsz1 : _size this1 = _size this + count op) by (by rewrite Hthis1).
    assert (Hcp1 : _capacity this1 = _capacity this) by (by rewrite Hthis1).
    split; [exact Hok'|]. split; [congruence|]. split; [congruence|].
    split; [lia|]. split; [|split].
    + intros b0 Hne. rewrite Hfr' by congruence. by apply Hfr.
    + intros b0 cs0 Hb0. destruct (Hlen _ _ Hb0) as (cs1 & Hcs1 & Hl1).
      destruct (Hlen' _ _ Hcs1) as (cs2 & Hcs2 & Hl2). exists cs2. split; [done|lia].
    + intros k Hk. rewrite <- Hpre by lia.
      unfold data in *. rewrite <- Hbuf1. apply Hpre'. lia.
Qed.

Lemma sample_live : live sample_heap sample.
Proof.
  split; [|eexists; reflexivity]. split; [split; [by vm_compute|reflexivity]|].
  split; [reflexivity|]. eexists. split; reflexivity.
Defined.

(** * The claims *)

Lemma total_size_length hw ops :
  Forall span_ok ops ->
  total_size ops = Z.of_nat (length (concat (encoded hw <$> ops))).
Proof.
  induction 1 as [|op ops Hop _ IH]; [reflexivity|].
  cbn [total_size foldr fmap list_fmap concat]. fold (total_size ops).
  rewrite length_app, Nat2Z.inj_add, <- IH, (encoded_length hw op Hop). reflexivity.
Qed.

(** C1: for every capacity [C] and every sequence of appends whose total
    encoded size is at most [C], running the sequence on a buffer constructed
    with capacity [C] is defined, [size()] is the sum of the encoded sizes,
    and the first [size()] bytes at [data()] are the concatenation of the
    encodings in call order.  A freshly constructed buffer has size zero. *)
Theorem add_sequence_concatenation hw (C : Z) (ops : list operand) (h : heap) :
  0 <= C < 2 ^ 32 ->
  Forall span_ok ops ->
  total_size ops <= C ->
  size (OutBuffer_new C h).1 = 0
  /\ exists this' h',
       add_all hw ops (OutBuffer_new C h).1 (OutBuffer_new C h).2 = Some (this', h')
       /\ size this' = total_size ops
       /\ total_size ops = Z.of_nat (length (concat (encoded hw <$> ops)))
       /\ contents this' h' = Some (Some <$> concat (encoded hw <$> ops)).
Proof.
  intros HC Hspan Hfit. split; [reflexivity|].
  destruct (OutBuffer_new_live C h HC) as [Hlive Hempty].
  destruct (add_all_fits hw ops _ _ _ Hlive Hempty Hspan)
    as (this' & h' & Hrun & _ & Hsize & _ & _ & Hcont).
  { cbn. lia. }
  exists this', h'. split; [exact Hrun|]. split; [exact Hsize|].
  split; [by apply total_size_length|exact Hcont].
Qed.

Lemma add_sequence_concatenation_witness :
  size (OutBuffer_new 15 ∅).1 = 0
  /\ exists this' h',
       add_all x86_64 scenario (OutBuffer_new 15 ∅).1 (OutBuffer_new 15 ∅).2
       = Some (this', h')
       /\ size this' = total_size scenario
       /\ total_size scenario
          = Z.of_nat (length (concat (encoded x86_64 <$> scenario)))
       /\ contents this' h' = Some (Some <$> concat (encoded x86_64 <$> scenario)).
Proof.
  apply (add_sequence_concatenation x86_64 15 scenario ∅).
  - lia.
  - repeat constructor; cbn; lia.
  - vm_compute. discriminate.
Defined.

(** The scenario yields the fifteen bytes the specification lists. *)
Example scenario_bytes :
  (let '(b, h) := OutBuffer_new 15 ∅ in
   '(b', h') ← add_all x86_64 scenario b h;
   cs ← contents b' h';
   Some (size b', cs))
  = Some (15, Some <$> [1; 0; 0; 0; 2; 170; 187; 204; 221; 0; 3; 116; 101; 115; 116]).
Proof. vm_compute. reflexivity. Qed.

(** One overload within the remaining capacity: defined, and the heap
    afterwards is the heap before with exactly the encoding stored at the old
    cursor. *)
Lemma add_operand_fits hw op this h :
  live h this ->
  span_ok op ->
  _size this + encoded_size op <= _capacity this ->
  exists this' h',
    add_operand hw op this h = Some (this', h')
    /\ live h' this'
    /\ size this' = size this + encoded_size op
    /\ _current this' = ptr_add (_current this) (encoded_size op)
    /\ store (_current this) (Some <$> encoded hw op) h = Some h'
    /\ load (_current this) (encoded_size op) h' = Some (Some <$> encoded hw op)
    /\ exists old, contents this h = Some old
                   /\ contents this' h' = Some (old ++ (Some <$> encoded hw op)).
Proof.
  intros Hlive Hspan Hfit.
  destruct (live_cursor _ _ Hlive) as (b & cs & Hb & Hcur & Hcs & Hlen & Hsz & Hcap).
  destruct (source_encoded hw op Hspan) as (Hcnt & Hsrc & Htake); [lia|].
  rewrite add_operand_append.
  destruct (append_fits hw (source hw op) (count op) this h Hlive Hsrc)
    as [[this' h'] Happ]; [lia|].
  pose proof (proj1 Hlive) as Hok.
  destruct (append_inv _ _ _ _ _ _ _ Hok Happ)
    as (b' & cs' & Hb' & Hcs' & _ & _ & _ & _ & _ & Hthis' & Hh').
  destruct (append_contents _ _ _ _ _ _ _ Hok Happ) as (old & Hold & Hnew & Hload).
  rewrite Hb in Hb'. injection Hb' as <-. rewrite Hcs in Hcs'. injection Hcs' as <-.
  rewrite Htake in Hh', Hnew, Hload. rewrite Hcnt in Hload, Hthis'.
  exists this', h'. split; [exact Happ|].
  split; [by eapply append_live|]. split; [by rewrite Hthis'|].
  split; [by rewrite Hthis', Hcur|]. split; [|split; [exact Hload|eauto]].
  rewrite Hcur, Hh'. apply store_fits; [done|lia|].
  rewrite length_fmap, (encoded_length hw op Hspan). lia.
Qed.

(** C2: appending a 16-, 32- or 64-bit unsigned value [V] to a buffer with
    room for it writes exactly 2, 4 or 8 bytes at the cursor, in big-endian
    order on every host: read back as a big-endian integer they give [V]. *)
Theorem add_unsigned_big_endian hw op (V : Z) this h :
  In op [UInt16 V; UInt32 V; UInt64 V] ->
  0 <= V < 256 ^ encoded_size op ->
  live h this ->
  _size this + encoded_size op <= _capacity this ->
  exists this' h' bs,
    add_operand hw op this h = Some (this', h')
    /\ size this' = size this + encoded_size op
    /\ Z.of_nat (length bs) = encoded_size op
    /\ store (_current this) (Some <$> bs) h = Some h'
    /\ load (_current this) (encoded_size op) h' = Some (Some <$> bs)
    /\ bs = be_bytes (length bs) V
    /\ be_value bs = V.
Proof.
  intros Hop HV Hlive Hfit.
  assert (Hspan : span_ok op).
  { destruct Hop as [<-|[<-|[<-|[]]]]; exact I. }
  destruct (add_operand_fits hw op this h Hlive Hspan Hfit)
    as (this' & h' & Hadd & _ & Hsize & _ & Hstore & Hload & _).
  exists this', h', (encoded hw op).
  split; [exact Hadd|]. split; [exact Hsize|].
  split; [by apply encoded_length|]. split; [exact Hstore|]. split; [exact Hload|].
  destruct Hop as [<-|[<-|[<-|[]]]]; cbn [encoded encoded_size] in *;
    rewrite be_bytes_length, be_value_be_bytes;
    (split; [reflexivity|apply Z.mod_small; exact HV]).
Qed.

Lemma add_unsigned_big_endian_witness :
  exists this' h' bs,
    add_operand x86_64 (UInt16 65535) sample sample_heap = Some (this', h')
    /\ size this' = size sample + encoded_size (UInt16 65535)
    /\ Z.of_nat (length bs) = encoded_size (UInt16 65535)
    /\ store (_current sample) (Some <$> bs) sample_heap = Some h'
    /\ load (_current sample) (encoded_size (UInt16 65535)) h' = Some (Some <$> bs)
    /\ bs = be_bytes (length bs) 65535
    /\ be_value bs = 65535.
Proof.
  apply (add_unsigned_big_endian x86_64 (UInt16 65535) 65535 sample sample_heap).
  - left. reflexivity.
  - vm_compute. split; [discriminate|reflexivity].
  - exact sample_live.
  - vm_compute. discriminate.
Defined.

(** The boundary values of each width, on a little-endian and on a
    big-endian host. *)
Example unsigned_boundaries :
  Forall (fun hw =>
    (source hw <$> [UInt16 0; UInt16 1; UInt16 65534; UInt16 65535])
      = [[0; 0]; [0; 1]; [255; 254]; [255; 255]]
    /\ (source hw <$> [UInt32 0; UInt32 1; UInt32 4294967294; UInt32 4294967295])
      = [[0; 0; 0; 0]; [0; 0; 0; 1]; [255; 255; 255; 254]; [255; 255; 255; 255]]
    /\ (source hw <$> [UInt64 0; UInt64 1; UInt64 18446744073709551614;
                       UInt64 18446744073709551615])
      = [[0; 0; 0; 0; 0; 0; 0; 0]; [0; 0; 0; 0; 0; 0; 0; 1];
         [255; 255; 255; 255; 255; 255; 255; 254];
         [255; 255; 255; 255; 255; 255; 255; 255]])
    [x86_64; ppc32].
Proof. repeat constructor. Qed.

(** C3: appending a 32- or 64-bit floating-point value with bit pattern [V]
    to a buffer with room for it writes exactly 4 or 8 bytes at the cursor:
    the object representation of the value on this host, with no byte-order
    conversion.  Read back in host order they give the same bit pattern, so
    signed zeros, NaN payloads and subnormals survive. *)
Theorem add_float_verbatim hw op (V : Z) this h :
  In op [Float V; Double V] ->
  0 <= V < 256 ^ encoded_size op ->
  live h this ->
  _size this + encoded_size op <= _capacity this ->
  exists this' h' bs,
    add_operand hw op this h = Some (this', h')
    /\ size this' = size this + encoded_size op
    /\ Z.of_nat (length bs) = encoded_size op
    /\ store (_current this) (Some <$> bs) h = Some h'
    /\ load (_current this) (encoded_size op) h' = Some (Some <$> bs)
    /\ bs = object_bytes hw (length bs) V
    /\ object_value hw bs = V.
Proof.
  intros Hop HV Hlive Hfit.
  assert (Hspan : span_ok op).
  { destruct Hop as [<-|[<-|[]]]; exact I. }
  destruct (add_operand_fits hw op this h Hlive Hspan Hfit)
    as (this' & h' & Hadd & _ & Hsize & _ & Hstore & Hload & _).
  exists this', h', (encoded hw op).
  split; [exact Hadd|]. split; [exact Hsize|].
  split; [by apply encoded_length|]. split; [exact Hstore|]. split; [exact Hload|].
  destruct Hop as [<-|[<-|[]]]; cbn [encoded encoded_size] in *;
    rewrite object_bytes_length, object_value_object_bytes;
    (split; [reflexivity|apply Z.mod_small; exact HV]).
Qed.

Lemma add_float_verbatim_witness :
  exists this' h' bs,
    add_operand x86_64 (Float 2143289345) sample sample_heap = Some (this', h')
    /\ size this' = size sample + encoded_size (Float 2143289345)
    /\ Z.of_nat (length bs) = encoded_size (Float 2143289345)
    /\ store (_current sample) (Some <$> bs) sample_heap = Some h'
    /\ load (_current sample) (encoded_size (Float 2143289345)) h' = Some (Some <$> bs)
    /\ bs = object_bytes x86_64 (length bs) 2143289345
    /\ object_value x86_64 bs = 2143289345.
Proof.
  apply (add_float_verbatim x86_64 (Float 2143289345) 2143289345 sample sample_heap).
  - left. reflexivity.
  - vm_compute. split; [discriminate|reflexivity].
  - exact sample_live.
  - vm_compute. discriminate.
Defined.

(** The sample values are stored least significant byte first on a
    little-endian host and most significant byte first on a big-endian one:
    the integer transform is not applied to them. *)
Example float_samples_host_order :
  (source x86_64 <$> (Float <$> binary32_samples))
    = [[0; 0; 0; 0]; [0; 0; 0; 128]; [0; 0; 128; 63]; [1; 0; 192; 127]; [1; 0; 0; 0]]
  /\ (source ppc32 <$> (Float <$> binary32_samples))
    = [[0; 0; 0; 0]; [128; 0; 0; 0]; [63; 128; 0; 0]; [127; 192; 0; 1]; [0; 0; 0; 1]]
  /\ (source x86_64 <$> (Double <$> binary64_samples))
    = [[0; 0; 0; 0; 0; 0; 0; 0]; [0; 0; 0; 0; 0; 0; 0; 128];
       [0; 0; 0; 0; 0; 0; 240; 63]; [1; 0; 0; 0; 0; 0; 248; 127];
       [1; 0; 0; 0; 0; 0; 0; 0]]
  /\ Forall (fun hw => Forall (fun V => object_value hw (source hw (Float V)) = V)
                         binary32_samples
                       /\ Forall (fun V => object_value hw (source hw (Double V)) = V)
                            binary64_samples)
       [x86_64; ppc32].
Proof. repeat split; repeat constructor. Qed.

(** C7: appending a string to a buffer with room for it writes the string's
    bytes, all of them and nothing else, unchanged, at the cursor, and adds
    the string's length to the bytes written. *)
Theorem add_string_verbatim hw (s : list Z) this h :
  live h this ->
  _size this + Z.of_nat (length s) <= _capacity this ->
  exists this' h',
    add_string hw s this h = Some (this', h')
    /\ size this' = size this + Z.of_nat (length s)
    /\ _current this' = ptr_add (_current this) (Z.of_nat (length s))
    /\ store (_current this) (Some <$> s) h = Some h'
    /\ load (_current this) (Z.of_nat (length s)) h' = Some (Some <$> s)
    /\ exists old, contents this h = Some old
                   /\ contents this' h' = Some (old ++ (Some <$> s)).
Proof.
  intros Hlive Hfit.
  destruct (add_operand_fits hw (Str s) this h Hlive I Hfit)
    as (this' & h' & Hadd & _ & Hsize & Hcur & Hstore & Hload & Hcont).
  exists this', h'. done.
Qed.

Lemma add_string_verbatim_witness :
  exists this' h',
    add_string ppc32 [116; 101; 115; 116] sample sample_heap = Some (this', h')
    /\ size this' = size sample + Z.of_nat (length [116; 101; 115; 116])
    /\ _current this'
       = ptr_add (_current sample) (Z.of_nat (length [116; 101; 115; 116]))
    /\ store (_current sample) (Some <$> [116; 101; 115; 116]) sample_heap = Some h'
    /\ load (_current sample) (Z.of_nat (length [116; 101; 115; 116])) h'
       = Some (Some <$> [116; 101; 115; 116])
    /\ exists old, contents sample sample_heap = Some old
                   /\ contents this' h' = Some (old ++ (Some <$> [116; 101; 115; 116])).
Proof.
  apply (add_string_verbatim ppc32 [116; 101; 115; 116] sample sample_heap).
  - exact sample_live.
  - vm_compute. discriminate.
Defined.

(** The length reaches [add] through a 32-bit parameter, so it is the fit in
    the capacity that makes the count equal to the length. *)
Remark add_string_count hw (s : list Z) :
  add_string hw s = add hw (s ++ [0]) (Z.of_nat (length s) mod 2 ^ 32).
Proof. reflexivity. Qed.

(** On a live buffer and within 32 bits, an overload is defined exactly when
    its operand fits the remaining capacity. *)
Lemma add_operand_defined_iff hw op this h :
  live h this -> span_ok op -> encoded_size op < 2 ^ 32 ->
  is_Some (add_operand hw op this h)
  <-> _size this + encoded_size op <= _capacity this.
Proof.
  intros Hlive Hspan Hlt. split.
  - intros [[this' h'] Hadd]. rewrite add_operand_append in Hadd.
    destruct (append_inv _ _ _ _ _ _ _ (proj1 Hlive) Hadd)
      as (_ & _ & _ & _ & _ & _ & _ & _ & Hfit & _).
    destruct (source_encoded hw op Hspan Hlt) as (Hcnt & _). lia.
  - intros Hfit.
    destruct (add_operand_fits hw op this h Hlive Hspan Hfit) as (? & ? & -> & _).
    by eexists.
Qed.

(** What any defined call of an overload leaves alone. *)
Lemma add_operand_sequential hw op this h this' h' :
  buffer_ok h this ->
  add_operand hw op this h = Some (this', h') ->
  (forall k, 0 <= k <= size this -> load (data this') k h' = load (data this) k h)
  /\ (exists old, contents this h = Some old
                  /\ load (data this') (size this) h' = Some old)
  /\ size this <= size this'
  /\ _capacity this' = _capacity this
  /\ data this' = data this
  /\ (forall b cs, h !! b = Some cs ->
        exists cs', h' !! b = Some cs' /\ length cs' = length cs).
Proof.
  intros Hok Hadd. rewrite add_operand_append in Hadd.
  pose proof (append_prefix _ _ _ _ _ _ _ Hok Hadd) as Hpre.
  destruct (append_frame _ _ _ _ _ _ _ Hok Hadd) as (_ & Hlen & _).
  destruct (append_contents _ _ _ _ _ _ _ Hok Hadd) as (old & Hold & _ & _).
  destruct (append_inv _ _ _ _ _ _ _ Hok Hadd)
    as (b & cs & Hb & _ & _ & Hsz & _ & Hn & _ & Hthis' & _).
  assert (Hdata : data this' = data this).
  { unfold data. rewrite Hthis', Hb. reflexivity. }
  unfold size. split; [|split; [|split; [|split; [|split]]]].
  - intros k Hk. rewrite Hdata. by apply Hpre.
  - exists old. split; [exact Hold|]. rewrite Hdata, Hpre by lia. exact Hold.
  - rewrite Hthis'. cbn. lia.
  - by rewrite Hthis'.
  - exact Hdata.
  - exact Hlen.
Qed.

(** C8: every append within the remaining capacity is defined and
    sequential.  The cells below the old size keep their values, the size
    does not decrease, and neither the capacity, nor the base address, nor
    the length of any block changes. *)
Theorem append_is_sequential hw op this h :
  live h this ->
  span_ok op ->
  _size this + encoded_size op <= _capacity this ->
  exists this' h',
    add_operand hw op this h = Some (this', h')
    /\ (forall k, 0 <= k <= size this ->
          load (data this') k h' = load (data this) k h)
    /\ (exists old, contents this h = Some old
                    /\ load (data this') (size this) h' = Some old)
    /\ size this <= size this'
    /\ _capacity this' = _capacity this
    /\ data this' = data this
    /\ (forall b cs, h !! b = Some cs ->
          exists cs', h' !! b = Some cs' /\ length cs' = length cs).
Proof.
  intros Hlive Hspan Hfit.
  destruct (add_operand_fits hw op this h Hlive Hspan Hfit)
    as (this' & h' & Hadd & _).
  exists this', h'. split; [exact Hadd|].
  exact (add_operand_sequential _ _ _ _ _ _ (proj1 Hlive) Hadd).
Qed.

Lemma append_is_sequential_witness :
  exists this' h',
    add_operand x86_64 (Int32 (-2)) sample sample_heap = Some (this', h')
    /\ (forall k, 0 <= k <= size sample ->
          load (data this') k h' = load (data sample) k sample_heap)
    /\ (exists old, contents sample sample_heap = Some old
                    /\ load (data this') (size sample) h' = Some old)
    /\ size sample <= size this'
    /\ _capacity this' = _capacity sample
    /\ data this' = data sample
    /\ (forall b cs, sample_heap !! b = Some cs ->
          exists cs', h' !! b = Some cs' /\ length cs' = length cs).
Proof.
  apply (append_is_sequential x86_64 (Int32 (-2)) sample sample_heap).
  - exact sample_live.
  - exact I.
  - vm_compute. discriminate.
Defined.

(** The sample buffer before and after [add(int32_t(-2))]. *)
Example sample_step :
  add_operand x86_64 (Int32 (-2)) sample sample_heap
  = Some (sample_next, sample_heap_next).
Proof. vm_compute. reflexivity. Qed.

Lemma htobe_wrap hw n x :
  object_bytes hw n (htobe hw n (wrap (8 * Z.of_nat n) x))
  = object_bytes hw n (htobe hw n x).
Proof.
  rewrite !object_bytes_htobe. unfold wrap.
  rewrite Z.pow_mul_r by lia. apply be_bytes_mod. lia.
Qed.

(** C9: for each width, the signed overload behaves exactly as the unsigned
    overload on the value with the same two's complement bit pattern: same
    bytes, same resulting buffer, same heap, defined in the same cases. *)
Theorem signed_as_unsigned hw (value : Z) this h :
  add_int8 hw value this h = add_uint8 hw (wrap 8 value) this h
  /\ add_int16 hw value this h = add_uint16 hw (wrap 16 value) this h
  /\ add_int32 hw value this h = add_uint32 hw (wrap 32 value) this h
  /\ add_int64 hw value this h = add_uint64 hw (wrap 64 value) this h.
Proof.
  unfold add_int8, add_uint8, add_int16, add_uint16, add_int32, add_uint32,
    add_int64, add_uint64, htobe16, htobe32, htobe64.
  split; [|split; [|split]]; f_equal.
  - symmetry. apply (object_bytes_congr hw 1). unfold wrap. apply Z.mod_mod. lia.
  - rewrite (object_bytes_signed hw 2), (htobe_wrap hw 2). reflexivity.
  - rewrite (object_bytes_signed hw 4), (htobe_wrap hw 4). reflexivity.
  - rewrite (object_bytes_signed hw 8), (htobe_wrap hw 8). reflexivity.
Qed.

(** Minus two in each signed width, next to the unsigned value with the same
    bits. *)
Example signed_samples :
  Forall (fun hw =>
    (source hw <$> [Int8 (-2); Int16 (-2); Int32 (-2); Int64 (-2)])
    = (source hw <$> [UInt8 254; UInt16 65534; UInt32 4294967294;
                      UInt64 18446744073709551614])
    /\ source hw (Int16 (-2)) = [255; 254]
    /\ source hw (Int16 (-32768)) = [128; 0]
    /\ source hw (Int32 2147483647) = [127; 255; 255; 255])
    [x86_64; ppc32].
Proof. repeat constructor. Qed.

(** C10: on a buffer that has not been moved from, appending a raw span with
    length zero changes neither the object nor the heap, so [size()], the
    bytes written and every later append are as if the call had not been
    made. *)
Theorem add_zero_length hw (string : list Z) this h :
  live h this ->
  add hw string 0 this h = Some (this, h)
  /\ forall ops, add_all hw (Raw string 0 :: ops) this h = add_all hw ops this h.
Proof.
  intros Hlive.
  assert (Hadd : add hw string 0 this h = Some (this, h)).
  { destruct (live_cursor _ _ Hlive) as (b & cs & Hb & Hcur & Hcs & Hlen & Hsz & Hcap).
    unfold add, append. rewrite Hcur, memcpy_fits by lia.
    change (Z.to_nat 0) with 0%nat. rewrite take_0.
    rewrite (store_fits b _ cs) by (try done; cbn [length]; lia).
    rewrite splice_nil, insert_id by done. cbn [mbind option_bind ptr_add].
    pose proof (size_t_bits_ge hw). rewrite !Z.add_0_r, wrap_small by lia.
    rewrite <- Hcur. destruct this; reflexivity. }
  split; [exact Hadd|]. intros ops. cbn [add_all add_operand].
  rewrite Hadd. reflexivity.
Qed.

Lemma add_zero_length_witness :
  add x86_64 [1; 2; 3] 0 sample sample_heap = Some (sample, sample_heap)
  /\ forall ops, add_all x86_64 (Raw [1; 2; 3] 0 :: ops) sample sample_heap
                 = add_all x86_64 ops sample sample_heap.
Proof. apply (add_zero_length x86_64 [1; 2; 3] sample sample_heap), sample_live. Defined.

(** ** Copy construction *)

(** Copying a live buffer is defined: a fresh block of the same capacity
    receives the bytes written so far. *)
Lemma OutBuffer_copy_live that h :
  live h that ->
  exists b0 cs,
    _buffer that = Some b0 /\ h !! b0 = Some cs /\ b0 <> fresh (dom h)
    /\ OutBuffer_copy that h
       = Some ({| _buffer := Some (fresh (dom h));
                  _current := Ptr (fresh (dom h)) (_size that);
                  _size := _size that;
                  _capacity := _capacity that |},
               <[fresh (dom h) :=
                   splice 0 (take (Z.to_nat (_size that)) cs)
                          (replicate (Z.to_nat (_capacity that)) None)]> h).
Proof.
  intros Hlive.
  destruct (live_cursor _ _ Hlive) as (b0 & cs & Hb & Hcur & Hcs & Hlen & Hsz & Hcap).
  pose proof (live_block_not_fresh _ _ _ Hcs) as Hne.
  exists b0, cs. do 3 (split; [done|]).
  unfold OutBuffer_copy, new_array. cbn [_buffer _size get ptr_add].
  rewrite Hb. cbn [get readable].
  rewrite lookup_insert_ne, Hcs by done. cbn [mbind option_bind].
  destruct (Z.leb_spec 0 (Z.of_nat (length cs))); [|lia].
  cbn [andb Z.leb Z.compare Z.to_nat]. rewrite drop_0.
  cbn [mbind option_bind]. rewrite memcpy_fits by lia.
  erewrite store_fits; [|apply lookup_insert_eq|lia|].
  - cbn [mbind option_bind]. rewrite insert_insert_eq, Z.add_0_l. reflexivity.
  - rewrite length_take, length_replicate. lia.
Qed.

(** A defined copy was taken from a live buffer. *)
Lemma OutBuffer_copy_Some that h this h' :
  buffer_ok h that -> OutBuffer_copy that h = Some (this, h') -> live h that.
Proof.
  intros Hok Hcopy. split; [exact Hok|].
  unfold OutBuffer_copy, new_array in Hcopy.
  destruct (_buffer that); [by eexists|discriminate].
Qed.

(** After a defined copy both buffers are live, and the blocks that existed
    before are as they were. *)
Lemma OutBuffer_copy_lives that h this h' :
  buffer_ok h that ->
  OutBuffer_copy that h = Some (this, h') ->
  live h' that /\ live h' this
  /\ (forall b cs, h !! b = Some cs -> h' !! b = Some cs).
Proof.
  intros Hok Hcopy.
  pose proof (OutBuffer_copy_Some _ _ _ _ Hok Hcopy) as Hlive.
  destruct (OutBuffer_copy_live _ _ Hlive) as (b0 & cs & Hb & Hcs & Hne & Hres).
  destruct (live_cursor _ _ Hlive) as (b0' & cs' & Hb' & _ & Hcs' & Hlen & Hsz & Hcap).
  rewrite Hb in Hb'. injection Hb' as <-. rewrite Hcs in Hcs'. injection Hcs' as <-.
  rewrite Hcopy in Hres. injection Hres as -> ->.
  assert (Hkeep : forall b' cs', h !! b' = Some cs' ->
            <[fresh (dom h) :=
                splice 0 (take (Z.to_nat (_size that)) cs)
                       (replicate (Z.to_nat (_capacity that)) None)]> h !! b'
            = Some cs').
  { intros b' cs' Hb'. rewrite lookup_insert_ne; [done|].
    symmetry. by eapply live_block_not_fresh. }
  split; [|split; [|exact Hkeep]].
  - split; [|apply Hlive]. eapply buffer_ok_mono; [|exact Hok]. eauto.
  - split; [|by eexists]. split; [split; [done|reflexivity]|]. split; [done|].
    cbn [_buffer _capacity]. eexists. rewrite lookup_insert_eq. split; [done|].
    rewrite length_splice, length_replicate; [lia|].
    rewrite length_take, length_replicate. lia.
Qed.

(** What a buffer holds depends on its own block only. *)
Lemma contents_ext this h h' :
  (forall b, _buffer this = Some b -> h' !! b = h !! b) ->
  contents this h' = contents this h.
Proof.
  intros Hsame. unfold contents, load, readable, data.
  destruct (_buffer this) as [b|]; [|reflexivity]. cbn [get].
  by rewrite Hsame.
Qed.

(** What a defined copy is, and what later appends cannot do to the other
    buffer. *)
Lemma OutBuffer_copy_spec hw B1 h B2 h2 :
  buffer_ok h B1 ->
  OutBuffer_copy B1 h = Some (B2, h2) ->
  _capacity B2 = _capacity B1
  /\ size B2 = size B1
  /\ (exists old, contents B1 h = Some old
                  /\ contents B2 h2 = Some old /\ contents B1 h2 = Some old)
  /\ _current B2 = ptr_add (data B2) (size B1)
  /\ data B2 <> data B1
  /\ (forall ops B2' h3, add_all hw ops B2 h2 = Some (B2', h3) ->
        contents B1 h3 = contents B1 h2 /\ live h3 B1)
  /\ (forall ops B1' h3, add_all hw ops B1 h2 = Some (B1', h3) ->
        contents B2 h3 = contents B2 h2 /\ live h3 B2).
Proof.
  intros Hok Hcopy.
  pose proof (OutBuffer_copy_Some _ _ _ _ Hok Hcopy) as Hlive.
  destruct (OutBuffer_copy_live _ _ Hlive) as (b0 & cs & Hb & Hcs & Hne & Hres).
  destruct (live_cursor _ _ Hlive) as (b0' & cs' & Hb' & _ & Hcs' & Hlen & Hsz & Hcap).
  rewrite Hb in Hb'. injection Hb' as <-. rewrite Hcs in Hcs'. injection Hcs' as <-.
  rewrite Hcopy in Hres. injection Hres as HB2 Hh2.
  destruct (OutBuffer_copy_lives _ _ _ _ Hok Hcopy) as (Hlive1 & Hlive2 & _).
  subst B2 h2.
  set (b := fresh (dom h)) in *.
  set (new := splice 0 (take (Z.to_nat (_size B1)) cs)
                     (replicate (Z.to_nat (_capacity B1)) None)).
  assert (Hfit : (0 + length (take (Z.to_nat (_size B1)) cs)
                  <= length (replicate (Z.to_nat (_capacity B1)) (None : cell)))%nat).
  { rewrite length_take, length_replicate. lia. }
  assert (Hnew : length new = Z.to_nat (_capacity B1)).
  { unfold new. rewrite length_splice by exact Hfit. apply length_replicate. }
  assert (Hold : contents B1 h = Some (take (Z.to_nat (_size B1)) cs)).
  { unfold contents, data, size. rewrite Hb. cbn [get].
    rewrite (load_fits b0 0 _ cs h) by (try done; lia). by rewrite drop_0. }
  assert (Hold1 : contents B1 (<[b := new]> h) = contents B1 h).
  { apply contents_ext. intros b' Hb'. rewrite Hb in Hb'. injection Hb' as <-.
    by apply lookup_insert_ne. }
  cbn [_capacity _current]. unfold size at 1 2 3. cbn [_size].
  do 2 (split; [reflexivity|]). split; [|split; [reflexivity|]].
  { exists (take (Z.to_nat (_size B1)) cs). split; [exact Hold|].
    split; [|by rewrite Hold1].
    unfold contents, data, size. cbn [_buffer _size get].
    erewrite load_fits; [|apply lookup_insert_eq|lia|lia|lia].
    rewrite drop_0. f_equal. unfold new.
    pose proof (take_splice_end 0 _ _ Hfit) as E. rewrite length_take in E.
    replace (0 + Z.to_nat (_size B1) `min` length cs)%nat
      with (Z.to_nat (_size B1)) in E by lia.
    exact E. }
  split. { unfold data. cbn [_buffer]. rewrite Hb. cbn [get]. congruence. }
  split.
  - intros ops B2' h3 Hrun.
    destruct (add_all_frame hw ops _ _ _ _ (proj1 Hlive2) Hrun)
      as (_ & _ & _ & _ & Hfr & Hlen3 & _).
    split.
    + apply contents_ext. intros b' Hb'. apply Hfr. cbn [_buffer]. congruence.
    + split; [|apply Hlive]. eapply buffer_ok_mono; [exact Hlen3|apply Hlive1].
  - intros ops B1' h3 Hrun.
    destruct (add_all_frame hw ops _ _ _ _ (proj1 Hlive1) Hrun)
      as (_ & _ & _ & _ & Hfr & Hlen3 & _).
    split.
    + apply contents_ext. intros b' Hb'. apply Hfr. cbn [_buffer] in Hb'. congruence.
    + split; [|by eexists]. eapply buffer_ok_mono; [exact Hlen3|apply Hlive2].
Qed.

(** C4: copying a live buffer [B1] is defined and yields a buffer [B2] with
    the capacity, the size and the bytes of [B1], in a block of its own, with
    its cursor at [B1]'s write position.  From then on the two are
    independent: any sequence of appends that fits the remaining capacity of
    one runs to its end and leaves the other's bytes (and, being a separate
    object, its size) as they were. *)
Theorem copy_independent hw B1 h :
  live h B1 ->
  exists B2 h2,
    OutBuffer_copy B1 h = Some (B2, h2)
    /\ _capacity B2 = _capacity B1
    /\ size B2 = size B1
    /\ (exists old, contents B1 h = Some old
                    /\ contents B2 h2 = Some old /\ contents B1 h2 = Some old)
    /\ _current B2 = ptr_add (data B2) (size B1)
    /\ data B2 <> data B1
    /\ (forall ops, Forall span_ok ops ->
          _size B2 + total_size ops <= _capacity B2 ->
          exists B2' h3,
            add_all hw ops B2 h2 = Some (B2', h3)
            /\ size B2' = size B2 + total_size ops
            /\ contents B1 h3 = contents B1 h2)
    /\ (forall ops, Forall span_ok ops ->
          _size B1 + total_size ops <= _capacity B1 ->
          exists B1' h3,
            add_all hw ops B1 h2 = Some (B1', h3)
            /\ size B1' = size B1 + total_size ops
            /\ contents B2 h3 = contents B2 h2).
Proof.
  intros Hlive.
  destruct (OutBuffer_copy_live _ _ Hlive) as (b0 & cs & _ & _ & _ & Hcopy).
  eexists _, _. split; [exact Hcopy|].
  destruct (OutBuffer_copy_lives _ _ _ _ (proj1 Hlive) Hcopy) as (Hlive1 & Hlive2 & _).
  destruct (OutBuffer_copy_spec hw _ _ _ _ (proj1 Hlive) Hcopy)
    as (Hcap & Hsize & (old & Hold & Hold2 & Hold1) & Hcur & Hdata & Hind2 & Hind1).
  do 2 (split; [done|]). split; [eauto|]. do 2 (split; [done|]). split.
  - intros ops Hspan Hfit.
    destruct (add_all_fits hw ops _ _ _ Hlive2 Hold2 Hspan Hfit)
      as (B2' & h3 & Hrun & _ & Hsz & _).
    exists B2', h3. split; [exact Hrun|]. split; [exact Hsz|].
    by destruct (Hind2 _ _ _ Hrun).
  - intros ops Hspan Hfit.
    destruct (add_all_fits hw ops _ _ _ Hlive1 Hold1 Hspan Hfit)
      as (B1' & h3 & Hrun & _ & Hsz & _).
    exists B1', h3. split; [exact Hrun|]. split; [exact Hsz|].
    by destruct (Hind1 _ _ _ Hrun).
Qed.

Lemma copy_independent_witness :
  exists B2 h2,
    OutBuffer_copy sample sample_heap = Some (B2, h2)
    /\ _capacity B2 = _capacity sample
    /\ size B2 = size sample
    /\ (exists old, contents sample sample_heap = Some old
                    /\ contents B2 h2 = Some old /\ contents sample h2 = Some old)
    /\ _current B2 = ptr_add (data B2) (size sample)
    /\ data B2 <> data sample
    /\ (forall ops, Forall span_ok ops ->
          _size B2 + total_size ops <= _capacity B2 ->
          exists B2' h3,
            add_all x86_64 ops B2 h2 = Some (B2', h3)
            /\ size B2' = size B2 + total_size ops
            /\ contents sample h3 = contents sample h2)
    /\ (forall ops, Forall span_ok ops ->
          _size sample + total_size ops <= _capacity sample ->
          exists B1' h3,
            add_all x86_64 ops sample h2 = Some (B1', h3)
            /\ size B1' = size sample + total_size ops
            /\ contents B2 h3 = contents B2 h2).
Proof. apply (copy_independent x86_64 sample sample_heap), sample_live. Defined.

(** The copy and the original after each has appended something else. *)
Example copy_then_diverge :
  ('(B1', h3) ← add_uint8 x86_64 1 sample sample_copy.2;
   '(B2', h4) ← add_uint16 x86_64 515 sample_copy.1 h3;
   c1 ← contents B1' h4; c2 ← contents B2' h4;
   Some (data B1', c1, data B2', c2))
  = Some (Ptr 1%positive 0, [Some 0; Some 7; Some 1],
          Ptr 2%positive 0, [Some 0; Some 7; Some 2; Some 3]).
Proof. vm_compute. reflexivity. Qed.

(** ** Move construction *)

(** C5: moving [B1] into [B2] is always defined and leaves the heap as it
    is.  [B2] takes over [B1]'s size, base address, cursor and capacity, hence
    its bytes; [B1] is left with size zero, capacity zero, a null cursor and
    no block.  Destroying what is left of [B1] releases nothing, so [B2]'s
    memory is untouched and [B2] is destroyed exactly as [B1] would have
    been. *)
Theorem move_transfers B1 h :
  exists B2 B1',
    OutBuffer_move B1 h = Some (B2, B1', h)
    /\ size B2 = size B1 /\ data B2 = data B1
    /\ _current B2 = _current B1 /\ _capacity B2 = _capacity B1
    /\ contents B2 h = contents B1 h
    /\ size B1' = 0 /\ _capacity B1' = 0
    /\ _current B1' = Null /\ _buffer B1' = None /\ data B1' = Null
    /\ OutBuffer_destroy B1' h = Some h
    /\ OutBuffer_destroy B2 h = OutBuffer_destroy B1 h.
Proof.
  unfold OutBuffer_move. eexists _, _. split; [reflexivity|].
  repeat split.
Qed.

(** A moved buffer and its husk: destroying the husk first and then the new
    owner releases the block once; the new owner keeps appending where the
    source stopped. *)
Example move_then_destroy :
  ('(B2, B1', h) ← OutBuffer_move sample sample_heap;
   h1 ← OutBuffer_destroy B1' h;
   '(B2', h2) ← add_uint8 x86_64 9 B2 h1;
   c ← contents B2' h2;
   h3 ← OutBuffer_destroy B2' h2;
   Some (B1', c, h3))
  = Some ({| _buffer := None; _current := Null; _size := 0; _capacity := 0 |},
          [Some 0; Some 7; Some 9], ∅).
Proof. vm_compute. reflexivity. Qed.

(** Releasing the same block twice would be undefined in this model. *)
Example double_free_undefined :
  (h1 ← OutBuffer_destroy sample sample_heap; OutBuffer_destroy sample h1) = None.
Proof. vm_compute. reflexivity. Qed.

(** ** Programs *)

Lemma moved_from_ok h :
  buffer_ok h {| _buffer := None; _current := Null; _size := 0; _capacity := 0 |}.
Proof. repeat split; cbn; lia. Qed.

(** Every step of a program keeps every buffer it holds in order. *)
Lemma step_ok hw a w w' :
  typed a -> world_ok w -> step hw a w = Some w' -> world_ok w'.
Proof.
  unfold world_ok. destruct w as [h vars]. cbn [w_heap w_vars].
  destruct a as [capacity|i|i|i op]; cbn [step typed w_heap w_vars]; intros Hty Hw Hstep.
  - (* construction *)
    destruct (OutBuffer_new_live capacity h Hty) as [[Hnew _] _].
    unfold OutBuffer_new in *.
    destruct (new_array capacity h) as [b h1] eqn:Hnewarr.
    injection Hstep as <-. cbn [w_heap w_vars fst snd] in *.
    apply Forall_app. split; [|by constructor].
    eapply Forall_impl; [exact Hw|]. intros this. apply buffer_ok_mono.
    intros b' cs' Hb'. pose proof (new_array_mono capacity h b' cs' Hb') as Hm.
    by rewrite Hnewarr in Hm.
  - (* copy *)
    destruct (vars !! i) as [that|] eqn:Hi; [|discriminate].
    cbn [mbind option_bind] in Hstep.
    destruct (OutBuffer_copy that h) as [[this h1]|] eqn:Hcopy; [|discriminate].
    cbn [mbind option_bind] in Hstep. injection Hstep as <-. cbn [w_heap w_vars].
    pose proof (Forall_lookup_1 _ _ _ _ Hw Hi) as Hthat.
    destruct (OutBuffer_copy_lives _ _ _ _ Hthat Hcopy) as (_ & [Hthis _] & Hkeep).
    apply Forall_app. split; [|by constructor].
    eapply Forall_impl; [exact Hw|]. intros b. apply buffer_ok_mono. eauto.
  - (* move *)
    destruct (vars !! i) as [that|] eqn:Hi; [|discriminate].
    cbn [mbind option_bind OutBuffer_move] in Hstep. injection Hstep as <-.
    cbn [w_heap w_vars].
    pose proof (Forall_lookup_1 _ _ _ _ Hw Hi) as Hthat.
    apply Forall_app. split.
    + apply Forall_insert; [exact Hw|apply moved_from_ok].
    + constructor; [|constructor]. destruct that. exact Hthat.
  - (* append *)
    destruct (vars !! i) as [this|] eqn:Hi; [|discriminate].
    cbn [mbind option_bind] in Hstep.
    destruct (add_operand hw op this h) as [[this' h1]|] eqn:Hadd; [|discriminate].
    cbn [mbind option_bind] in Hstep. injection Hstep as <-. cbn [w_heap w_vars].
    pose proof (Forall_lookup_1 _ _ _ _ Hw Hi) as Hthis.
    rewrite add_operand_append in Hadd.
    destruct (append_frame _ _ _ _ _ _ _ Hthis Hadd) as (_ & Hlen & _).
    apply Forall_insert; [|by eapply append_live].
    eapply Forall_impl; [exact Hw|]. intros b. by apply buffer_ok_mono.
Qed.

Lemma run_ok hw acts : forall w w',
  Forall typed acts -> world_ok w -> run hw acts w = Some w' -> world_ok w'.
Proof.
  induction acts as [|a acts IH]; intros w w' Hty Hw Hrun.
  - cbn in Hrun. by injection Hrun as <-.
  - apply Forall_cons in Hty as [Ha Hty]. cbn [run] in Hrun.
    destruct (step hw a w) as [w1|] eqn:Hstep; [|discriminate].
    cbn [mbind option_bind] in Hrun.
    eapply IH; [exact Hty| |exact Hrun]. by eapply step_ok.
Qed.

(** C6: in every state a program reaches from nothing by constructing,
    copying, moving and appending, every buffer has
    [0 <= bytes_written <= capacity] and its cursor at
    [base_address + bytes_written]. *)
Theorem reachable_invariant hw (acts : list action) (w : world) :
  Forall typed acts ->
  run hw acts (World ∅ []) = Some w ->
  Forall invariant (w_vars w).
Proof.
  intros Hty Hrun.
  assert (Hw : world_ok w).
  { eapply run_ok; [exact Hty| |exact Hrun]. constructor. }
  eapply Forall_impl; [exact Hw|]. intros this Hok. apply Hok.
Qed.

Lemma reachable_invariant_witness : Forall invariant (w_vars sample_world).
Proof.
  apply (reachable_invariant x86_64 sample_program sample_world).
  - repeat constructor; cbn; lia.
  - vm_compute. reflexivity.
Defined.

(** The sample program ends with a husk, a full copy and the moved buffer. *)
Example sample_world_vars :
  w_vars sample_world
  = [ {| _buffer := None; _current := Null; _size := 0; _capacity := 0 |};
      {| _buffer := Some 2%positive; _current := Ptr 2%positive 4;
         _size := 4; _capacity := 4 |};
      {| _buffer := Some 1%positive; _current := Ptr 1%positive 3;
         _size := 3; _capacity := 4 |} ].
Proof. vm_compute. reflexivity. Qed.

(** An append past the capacity has no defined outcome. *)
Example overrun_undefined :
  run x86_64 (sample_program ++ [AddTo 1 (UInt8 0)]) (World ∅ []) = None.
Proof. vm_compute. reflexivity. Qed.

(** * Further properties of the class *)

(** ** Exact outcomes *)

Lemma splice_splice off (a b cs : list cell) :
  (off + length a + length b <= length cs)%nat ->
  splice (off + length a) b (splice off a cs) = splice off (a ++ b) cs.
Proof.
  intros Hfit. unfold splice at 1.
  assert (Ha : (off + length a <= length cs)%nat) by lia.
  rewrite (take_splice_end off a cs Ha).
  assert (Hd : drop (off + length a + length b) (splice off a cs)
               = drop (off + length a + length b) cs).
  { unfold splice. rewrite app_assoc, drop_app_ge by (rewrite length_app, length_take; lia).
    rewrite length_app, length_take, drop_drop. f_equal. lia. }
  rewrite Hd. unfold splice. rewrite length_app, <- !app_assoc.
  do 4 f_equal. lia.
Qed.

(** The outcome of an append that fits, in full. *)
Lemma append_result hw src n this h :
  live h this ->
  0 <= n <= Z.of_nat (length src) ->
  _size this + n <= _capacity this ->
  exists b cs,
    _buffer this = Some b /\ h !! b = Some cs
    /\ Z.of_nat (length cs) = _capacity this
    /\ append hw src n this h
       = Some ({| _buffer := Some b; _current := Ptr b (_size this + n);
                  _size := _size this + n; _capacity := _capacity this |},
               <[b := splice (Z.to_nat (_size this))
                             (Some <$> take (Z.to_nat n) src) cs]> h).
Proof.
  intros Hlive Hn Hfit.
  destruct (append_fits hw src n this h Hlive Hn Hfit) as [[this' h'] Happ].
  destruct (append_inv _ _ _ _ _ _ _ (proj1 Hlive) Happ)
    as (b & cs & Hb & Hcs & Hlen & _ & _ & _ & _ & -> & ->).
  exists b, cs. done.
Qed.

(** The outcome of a sequence that fits, in full: the block receives the
    concatenated encodings at the old size and nothing else changes. *)
Lemma add_all_result hw ops : forall this h b cs,
  live h this ->
  _buffer this = Some b -> h !! b = Some cs ->
  Forall span_ok ops ->
  _size this + total_size ops <= _capacity this ->
  add_all hw ops this h
  = Some ({| _buffer := Some b; _current := Ptr b (_size this + total_size ops);
             _size := _size this + total_size ops;
             _capacity := _capacity this |},
          <[b := splice (Z.to_nat (_size this))
                        (Some <$> concat (encoded hw <$> ops)) cs]> h).
Proof.
  induction ops as [|op ops IH]; intros this h b cs Hlive Hb Hcs Hspan Hfit.
  - destruct (live_cursor _ _ Hlive) as (b' & cs' & Hb' & Hcur & _).
    rewrite Hb in Hb'. injection Hb' as <-.
    cbn [add_all total_size foldr fmap list_fmap concat].
    rewrite splice_nil, insert_id, Z.add_0_r, <- Hcur, <- Hb by done.
    by destruct this.
  - apply Forall_cons in Hspan as [Hop Hspan].
    pose proof (total_size_nonneg _ Hspan) as Hnn.
    cbn [total_size foldr] in Hfit |- *. fold (total_size ops) in Hfit |- *.
    destruct (live_cursor _ _ Hlive) as (b' & cs' & Hb' & _ & Hcs' & Hlen & Hsz & Hcap).
    rewrite Hb in Hb'. injection Hb' as <-. rewrite Hcs in Hcs'. injection Hcs' as <-.
    destruct (source_encoded hw op Hop) as (Hcnt & Hsrc & Htake); [lia|].
    destruct (append_result hw (source hw op) (count op) this h Hlive Hsrc)
      as (b' & cs' & Hb' & Hcs' & _ & Happ); [lia|].
    rewrite Hb in Hb'. injection Hb' as <-. rewrite Hcs in Hcs'. injection Hcs' as <-.
    pose proof (append_live _ _ _ _ _ _ _ (proj1 Hlive) Happ) as Hlive1.
    rewrite Htake, Hcnt in Happ.
    pose proof (encoded_length hw op Hop) as Hel.
    cbn [add_all]. rewrite add_operand_append, Hcnt, Happ. cbn [mbind option_bind].
    rewrite Htake, Hcnt in Hlive1.
    erewrite IH; [|exact Hlive1|reflexivity|apply lookup_insert_eq|exact Hspan|cbn; lia].
    cbn [_size _capacity fmap list_fmap concat]. rewrite insert_insert_eq.
    rewrite fmap_app, <- splice_splice by (rewrite !length_fmap; pose proof (total_size_length hw ops Hspan); lia).
    rewrite length_fmap.
    replace (Z.to_nat (_size this + encoded_size op))
      with (Z.to_nat (_size this) + length (encoded hw op))%nat by lia.
    rewrite !Z.add_assoc. reflexivity.
Qed.

Lemma splice_replicate (a : list cell) n :
  (length a <= n)%nat ->
  splice 0 a (replicate n None) = a ++ replicate (n - length a) None.
Proof.
  intros Hle. unfold splice. cbn [take app Nat.add].
  by rewrite drop_replicate.
Qed.

(** X1: a sequence of appends that fits the remaining capacity of a live
    buffer has exactly the outcome of one raw append of the concatenated
    encodings: the same object and the same heap, cell for cell. *)
Theorem sequence_as_one_raw hw (ops : list operand) this h :
  live h this ->
  Forall span_ok ops ->
  _size this + total_size ops <= _capacity this ->
  is_Some (add_all hw ops this h)
  /\ add_all hw ops this h
     = add hw (concat (encoded hw <$> ops)) (total_size ops) this h.
Proof.
  intros Hlive Hspan Hfit.
  destruct (live_cursor _ _ Hlive) as (b & cs & Hb & _ & Hcs & _).
  pose proof (total_size_length hw ops Hspan) as Hlen.
  rewrite (add_all_result hw ops this h b cs Hlive Hb Hcs Hspan Hfit).
  split; [by eexists|]. unfold add.
  destruct (append_result hw (concat (encoded hw <$> ops)) (total_size ops) this h Hlive)
    as (b' & cs' & Hb' & Hcs' & _ & ->); [lia|exact Hfit|].
  rewrite Hb in Hb'. injection Hb' as <-. rewrite Hcs in Hcs'. injection Hcs' as <-.
  rewrite take_all by lia. reflexivity.
Qed.

Lemma sequence_as_one_raw_witness :
  is_Some (add_all ppc32 [UInt16 258; Str [3]; Int8 (-1)] sample sample_heap)
  /\ add_all ppc32 [UInt16 258; Str [3]; Int8 (-1)] sample sample_heap
     = add ppc32 (concat (encoded ppc32 <$> [UInt16 258; Str [3]; Int8 (-1)]))
           (total_size [UInt16 258; Str [3]; Int8 (-1)]) sample sample_heap.
Proof.
  apply (sequence_as_one_raw ppc32 [UInt16 258; Str [3]; Int8 (-1)] sample sample_heap).
  - exact sample_live.
  - repeat constructor.
  - vm_compute. discriminate.
Defined.

(** X2: after construction with capacity [C] and a sequence of appends that
    fits, the heap is the old heap plus one new block, which holds the
    concatenated encodings followed by [C - size()] cells that were never
    written; no other block has changed. *)
Theorem constructed_block hw (C : Z) (ops : list operand) (h : heap) :
  0 <= C < 2 ^ 32 ->
  Forall span_ok ops ->
  total_size ops <= C ->
  add_all hw ops (OutBuffer_new C h).1 (OutBuffer_new C h).2
  = Some ({| _buffer := Some (fresh (dom h));
             _current := Ptr (fresh (dom h)) (total_size ops);
             _size := total_size ops;
             _capacity := C |},
          <[fresh (dom h) :=
              (Some <$> concat (encoded hw <$> ops))
              ++ replicate (Z.to_nat (C - total_size ops)) None]> h).
Proof.
  intros HC Hspan Hfit.
  destruct (OutBuffer_new_live C h HC) as [Hlive _].
  pose proof (total_size_length hw ops Hspan) as Hlen.
  erewrite add_all_result;
    [|exact Hlive|reflexivity|apply lookup_insert_eq|exact Hspan|cbn; lia].
  cbn [OutBuffer_new new_array fst snd _size _capacity].
  rewrite insert_insert_eq. change (Z.to_nat 0) with 0%nat.
  rewrite splice_replicate by (rewrite length_fmap; lia).
  rewrite length_fmap, !Z.add_0_l.
  replace (Z.to_nat C - length (concat (encoded hw <$> ops)))%nat
    with (Z.to_nat (C - total_size ops)) by lia.
  reflexivity.
Qed.

Lemma constructed_block_witness :
  add_all x86_64 scenario (OutBuffer_new 16 sample_heap).1
          (OutBuffer_new 16 sample_heap).2
  = Some ({| _buffer := Some (fresh (dom sample_heap));
             _current := Ptr (fresh (dom sample_heap)) (total_size scenario);
             _size := total_size scenario;
             _capacity := 16 |},
          <[fresh (dom sample_heap) :=
              (Some <$> concat (encoded x86_64 <$> scenario))
              ++ replicate (Z.to_nat (16 - total_size scenario)) None]> sample_heap).
Proof.
  apply (constructed_block x86_64 16 scenario sample_heap).
  - lia.
  - repeat constructor; cbn; lia.
  - vm_compute. discriminate.
Defined.

(** X3: constructing a buffer, appending a sequence that fits and destroying
    the buffer gives back the heap one started from: the destructor releases
    exactly the block the constructor allocated, and nothing else was
    touched in between. *)
Theorem lifecycle_restores_heap hw (C : Z) (ops : list operand) (h : heap) :
  0 <= C < 2 ^ 32 ->
  Forall span_ok ops ->
  total_size ops <= C ->
  ('(this, h1) ← add_all hw ops (OutBuffer_new C h).1 (OutBuffer_new C h).2;
   OutBuffer_destroy this h1) = Some h.
Proof.
  intros HC Hspan Hfit.
  destruct (OutBuffer_new_live C h HC) as [Hlive _].
  erewrite add_all_result;
    [|exact Hlive|reflexivity|apply lookup_insert_eq|exact Hspan|cbn; lia].
  cbn [mbind option_bind OutBuffer_destroy _buffer OutBuffer_new new_array fst snd].
  unfold delete_array. rewrite lookup_insert_eq, insert_insert_eq.
  by rewrite delete_insert_id by apply fresh_block_dead.
Qed.

Lemma lifecycle_restores_heap_witness :
  ('(this, h1) ← add_all x86_64 scenario (OutBuffer_new 15 sample_heap).1
                         (OutBuffer_new 15 sample_heap).2;
   OutBuffer_destroy this h1) = Some sample_heap.
Proof.
  apply (lifecycle_restores_heap x86_64 15 scenario sample_heap).
  - lia.
  - repeat constructor; cbn; lia.
  - vm_compute. discriminate.
Defined.

(** ** Copies *)

(** X4: the copy constructor duplicates the bytes written so far and no
    more.  The new block holds the first [size()] cells of the source block
    followed by [capacity - size()] cells that were never written, whatever
    the source block holds beyond its size; the rest of the heap is as it
    was. *)
Theorem copy_block that h b0 cs :
  live h that ->
  _buffer that = Some b0 ->
  h !! b0 = Some cs ->
  OutBuffer_copy that h
  = Some ({| _buffer := Some (fresh (dom h));
             _current := Ptr (fresh (dom h)) (_size that);
             _size := _size that;
             _capacity := _capacity that |},
          <[fresh (dom h) :=
              take (Z.to_nat (_size that)) cs
              ++ replicate (Z.to_nat (_capacity that - _size that)) None]> h).
Proof.
  intros Hlive Hb Hcs.
  destruct (live_cursor _ _ Hlive) as (b' & cs' & Hb' & _ & Hcs' & Hlen & Hsz & _).
  rewrite Hb in Hb'. injection Hb' as <-. rewrite Hcs in Hcs'. injection Hcs' as <-.
  destruct (OutBuffer_copy_live _ _ Hlive) as (b' & cs' & Hb' & Hcs' & _ & ->).
  rewrite Hb in Hb'. injection Hb' as <-. rewrite Hcs in Hcs'. injection Hcs' as <-.
  rewrite splice_replicate by (rewrite length_take; lia).
  rewrite length_take.
  replace (Z.to_nat (_capacity that) - Z.to_nat (_size that) `min` length cs)%nat
    with (Z.to_nat (_capacity that - _size that)) by lia.
  reflexivity.
Qed.

Lemma copy_block_witness :
  OutBuffer_copy sample_next sample_heap_next
  = Some ({| _buffer := Some (fresh (dom sample_heap_next));
             _current := Ptr (fresh (dom sample_heap_next)) (_size sample_next);
             _size := _size sample_next;
             _capacity := _capacity sample_next |},
          <[fresh (dom sample_heap_next) :=
              take (Z.to_nat (_size sample_next))
                   [Some 0; Some 7; Some 255; Some 255; Some 255; Some 254; None; None]
              ++ replicate (Z.to_nat (_capacity sample_next - _size sample_next)) None]>
            sample_heap_next).
Proof.
  apply (copy_block sample_next sample_heap_next 1%positive).
  - split; [|eexists; reflexivity]. split; [split; [by vm_compute|reflexivity]|].
    split; [reflexivity|]. eexists. split; reflexivity.
  - reflexivity.
  - reflexivity.
Defined.

(** X5: a copy is a scratch buffer.  Copying a live buffer, appending to the
    copy any sequence that fits and destroying the copy gives back exactly
    the heap from before the copy, the original's block included. *)
Theorem copy_lifecycle_restores_heap hw that h (ops : list operand) :
  live h that ->
  Forall span_ok ops ->
  _size that + total_size ops <= _capacity that ->
  ('(this, h1) ← OutBuffer_copy that h;
   '(this', h2) ← add_all hw ops this h1;
   OutBuffer_destroy this' h2) = Some h.
Proof.
  intros Hlive Hspan Hfit.
  destruct (OutBuffer_copy_live _ _ Hlive) as (b0 & cs & _ & _ & _ & Hcopy).
  destruct (OutBuffer_copy_lives _ _ _ _ (proj1 Hlive) Hcopy) as (_ & Hlive2 & _).
  rewrite Hcopy. cbn [mbind option_bind].
  erewrite add_all_result;
    [|exact Hlive2|reflexivity|apply lookup_insert_eq|exact Hspan|exact Hfit].
  cbn [mbind option_bind OutBuffer_destroy _buffer].
  unfold delete_array. rewrite lookup_insert_eq, insert_insert_eq.
  by rewrite delete_insert_id by apply fresh_block_dead.
Qed.

Lemma copy_lifecycle_restores_heap_witness :
  ('(this, h1) ← OutBuffer_copy sample sample_heap;
   '(this', h2) ← add_all ppc32 [UInt32 1; Raw [5; 6] 2] this h1;
   OutBuffer_destroy this' h2) = Some sample_heap.
Proof.
  apply (copy_lifecycle_restores_heap ppc32 sample sample_heap [UInt32 1; Raw [5; 6] 2]).
  - exact sample_live.
  - repeat constructor; cbn; lia.
  - vm_compute. discriminate.
Defined.

(** X6: a copy continues where its original stands.  The same sequence of
    appends, fitting the remaining capacity, run on the copy and on the
    original ends with the same size and the same bytes in both. *)
Theorem copy_continues_alike hw that h (ops : list operand) :
  live h that ->
  Forall span_ok ops ->
  _size that + total_size ops <= _capacity that ->
  exists this h1 this' h2 that' h3 bytes,
    OutBuffer_copy that h = Some (this, h1)
    /\ add_all hw ops this h1 = Some (this', h2)
    /\ add_all hw ops that h2 = Some (that', h3)
    /\ size this' = size that'
    /\ contents this' h3 = Some bytes
    /\ contents that' h3 = Some bytes.
Proof.
  intros Hlive Hspan Hfit.
  destruct (OutBuffer_copy_live _ _ Hlive) as (b0 & cs & _ & _ & _ & Hcopy).
  destruct (OutBuffer_copy_lives _ _ _ _ (proj1 Hlive) Hcopy) as (Hlive1 & Hlive2 & _).
  destruct (OutBuffer_copy_spec hw _ _ _ _ (proj1 Hlive) Hcopy)
    as (_ & _ & (old & _ & Hold2 & Hold1) & _ & _ & Hind2 & _).
  destruct (add_all_fits hw ops _ _ _ Hlive2 Hold2 Hspan Hfit)
    as (this' & h2 & Hrun2 & Hlive2' & Hsz2 & _ & Hbuf2 & Hcont2).
  destruct (Hind2 _ _ _ Hrun2) as [Hkeep Hlive1'].
  rewrite Hold1 in Hkeep.
  destruct (add_all_fits hw ops _ _ _ Hlive1' Hkeep Hspan Hfit)
    as (that' & h3 & Hrun1 & _ & Hsz1 & _ & Hbuf1 & Hcont1).
  destruct (add_all_frame hw ops _ _ _ _ (proj1 Hlive1') Hrun1)
    as (_ & _ & _ & _ & Hfr & _).
  eexists _, _, this', h2, that', h3, _.
  split; [exact Hcopy|]. split; [exact Hrun2|]. split; [exact Hrun1|].
  split; [unfold size; cbn [_size] in *; lia|]. split; [|exact Hcont1].
  rewrite <- Hcont2. apply contents_ext. intros b Hb. apply Hfr.
  rewrite Hbuf2 in Hb. cbn [_buffer] in Hb. injection Hb as <-.
  destruct (live_cursor _ _ Hlive) as (b1 & cs1 & -> & _ & Hcs1 & _).
  intros [= ->]. by rewrite fresh_block_dead in Hcs1.
Qed.

Lemma copy_continues_alike_witness :
  exists this h1 this' h2 that' h3 bytes,
    OutBuffer_copy sample sample_heap = Some (this, h1)
    /\ add_all x86_64 [Int16 (-2); Float 1] this h1 = Some (this', h2)
    /\ add_all x86_64 [Int16 (-2); Float 1] sample h2 = Some (that', h3)
    /\ size this' = size that'
    /\ contents this' h3 = Some bytes
    /\ contents that' h3 = Some bytes.
Proof.
  apply (copy_continues_alike x86_64 sample sample_heap [Int16 (-2); Float 1]).
  - exact sample_live.
  - repeat constructor.
  - vm_compute. discriminate.
Defined.

(** ** Bounds *)

(** X7: no overload checks the capacity.  On a live buffer a call is defined
    exactly when the number of bytes it hands to [memcpy] fits between the
    cursor and the end of the block; past that it has no defined outcome. *)
Theorem add_defined_iff_room hw op this h :
  live h this ->
  span_ok op ->
  is_Some (add_operand hw op this h)
  <-> _size this + count op <= _capacity this.
Proof.
  intros Hlive Hspan. rewrite add_operand_append.
  assert (Hsrc : 0 <= count op <= Z.of_nat (length (source hw op))).
  { destruct op; cbn [count source span_ok] in *;
      rewrite ?object_bytes_length; try lia.
    unfold c_str, wrap. rewrite length_app. cbn [length].
    pose proof (Z.mod_pos_bound (Z.of_nat (length s)) (2 ^ 32) eq_refl).
    pose proof (Z.mod_le (Z.of_nat (length s)) (2 ^ 32)). lia. }
  split.
  - intros [[this' h'] Happ].
    by destruct (append_inv _ _ _ _ _ _ _ (proj1 Hlive) Happ)
      as (_ & _ & _ & _ & _ & _ & _ & _ & Hfit & _).
  - intros Hfit. by apply append_fits.
Qed.

Lemma add_defined_iff_room_witness :
  is_Some (add_operand x86_64 (UInt64 1) sample sample_heap)
  <-> _size sample + count (UInt64 1) <= _capacity sample.
Proof.
  apply (add_defined_iff_room x86_64 (UInt64 1) sample sample_heap).
  - exact sample_live.
  - exact I.
Defined.

(** Six free bytes take a [uint32_t] but not a [uint64_t]. *)
Example room_for_four_not_eight :
  is_Some (add_uint32 x86_64 1 sample sample_heap)
  /\ add_uint64 x86_64 1 sample sample_heap = None.
Proof. split; [by eexists|vm_compute; reflexivity]. Qed.

(** X8: [add(const std::string &)] is the raw overload applied to the
    string's characters with their number reduced modulo 2^32: the
    terminating zero of [c_str()] is never copied, and a string of 2^32
    bytes or more is cut to the low 32 bits of its length.  This holds on
    every buffer and heap, defined or not. *)
Theorem add_string_as_raw hw (s : list Z) this h :
  add_string hw s this h
  = add hw s (Z.of_nat (length s) mod 2 ^ 32) this h.
Proof.
  unfold add_string, add, append, memcpy, c_str, wrap.
  pose proof (Z.mod_pos_bound (Z.of_nat (length s)) (2 ^ 32) eq_refl) as Hn.
  pose proof (Z.mod_le (Z.of_nat (length s)) (2 ^ 32)) as Hle.
  set (n := Z.of_nat (length s) mod 2 ^ 32) in *.
  rewrite !length_fmap, length_app. cbn [length].
  destruct (Z.leb_spec 0 n); [|lia].
  destruct (Z.leb_spec n (Z.of_nat (length s + 1))); [|lia].
  destruct (Z.leb_spec n (Z.of_nat (length s))); [|lia].
  cbn [andb]. rewrite fmap_app, take_app_le by (rewrite length_fmap; lia).
  reflexivity.
Qed.

(** ** Values *)

Lemma to_signed_wrap bits v :
  0 < bits -> - 2 ^ (bits - 1) <= v < 2 ^ (bits - 1) ->
  to_signed bits (wrap bits v) = v.
Proof.
  intros Hb Hv. unfold to_signed, wrap.
  assert (E : 2 ^ bits = 2 * 2 ^ (bits - 1)).
  { rewrite <- Z.pow_succ_r by lia. f_equal. lia. }
  assert (0 < 2 ^ (bits - 1)) by (apply Z.pow_pos_nonneg; lia).
  destruct (Z.lt_ge_cases v 0) as [Hneg|Hpos].
  - replace (v mod 2 ^ bits) with (v + 2 ^ bits).
    + destruct (Z.ltb_spec (v + 2 ^ bits) (2 ^ (bits - 1))); lia.
    + symmetry. rewrite <- (Z.mod_add v 1) by lia. rewrite Z.mul_1_l.
      apply Z.mod_small. lia.
  - rewrite Z.mod_small by lia.
    destruct (Z.ltb_spec v (2 ^ (bits - 1))); lia.
Qed.

(** X9: a signed value survives the trip.  Appending an 8-, 16-, 32- or
    64-bit signed [v] to a buffer with room stores bytes which, read back as
    a big-endian integer and taken as two's complement, are [v] again, on
    every host. *)
Theorem add_signed_round_trip hw op (v : Z) this h :
  In op [Int8 v; Int16 v; Int32 v; Int64 v] ->
  - 2 ^ (8 * encoded_size op - 1) <= v < 2 ^ (8 * encoded_size op - 1) ->
  live h this ->
  _size this + encoded_size op <= _capacity this ->
  exists this' h' bs,
    add_operand hw op this h = Some (this', h')
    /\ size this' = size this + encoded_size op
    /\ load (_current this) (encoded_size op) h' = Some (Some <$> bs)
    /\ Z.of_nat (length bs) = encoded_size op
    /\ to_signed (8 * encoded_size op) (be_value bs) = v.
Proof.
  intros Hop Hv Hlive Hfit.
  assert (Hspan : span_ok op).
  { destruct Hop as [<-|[<-|[<-|[<-|[]]]]]; exact I. }
  destruct (add_operand_fits hw op this h Hlive Hspan Hfit)
    as (this' & h' & Hadd & _ & Hsize & _ & _ & Hload & _).
  exists this', h', (encoded hw op).
  split; [exact Hadd|]. split; [exact Hsize|]. split; [exact Hload|].
  split; [by apply encoded_length|].
  destruct Hop as [<-|[<-|[<-|[<-|[]]]]]; cbn [encoded encoded_size] in *;
    rewrite be_value_be_bytes.
  - apply (to_signed_wrap 8); [lia|exact Hv].
  - apply (to_signed_wrap 16); [lia|exact Hv].
  - apply (to_signed_wrap 32); [lia|exact Hv].
  - apply (to_signed_wrap 64); [lia|exact Hv].
Qed.

Lemma add_signed_round_trip_witness :
  exists this' h' bs,
    add_operand x86_64 (Int16 (-32768)) sample sample_heap = Some (this', h')
    /\ size this' = size sample + encoded_size (Int16 (-32768))
    /\ load (_current sample) (encoded_size (Int16 (-32768))) h' = Some (Some <$> bs)
    /\ Z.of_nat (length bs) = encoded_size (Int16 (-32768))
    /\ to_signed (8 * encoded_size (Int16 (-32768))) (be_value bs) = -32768.
Proof.
  apply (add_signed_round_trip x86_64 (Int16 (-32768)) (-32768) sample sample_heap).
  - right. left. reflexivity.
  - vm_compute. split; discriminate || reflexivity.
  - exact sample_live.
  - vm_compute. discriminate.
Defined.

Lemma le_bytes_snoc n x :
  le_bytes (S n) x = le_bytes n x ++ [(x / 256 ^ Z.of_nat n) mod 256].
Proof.
  revert x. induction n as [|n IH]; intros x.
  - cbn [le_bytes app]. change (256 ^ Z.of_nat 0) with 1. by rewrite Z.div_1_r.
  - change (le_bytes (S (S n)) x) with (x mod 256 :: le_bytes (S n) (x / 256)).
    rewrite IH. cbn [le_bytes app]. do 3 f_equal.
    rewrite pow256_succ, Z.div_div; [reflexivity|lia|apply pow256_pos].
Qed.

(** Little-endian is big-endian read backwards. *)
Lemma le_bytes_reverse n x : le_bytes n x = reverse (be_bytes n x).
Proof.
  induction n as [|n IH]; [reflexivity|].
  rewrite le_bytes_snoc, IH. cbn [be_bytes]. by rewrite reverse_cons.
Qed.

(** X10: only the integer overloads reorder bytes.  [add(uint32_t)] and
    [add(uint64_t)] store the value most significant byte first on every
    host; [add(float)] and [add(double)] store the same bit pattern in that
    order on a big-endian host and in the reverse order on a little-endian
    one.  Each behaves on every buffer and heap as the raw overload on
    those bytes. *)
Theorem float_bytes_follow_host hw (v : Z) this h :
  add_uint32 hw v this h = add hw (be_bytes 4 v) 4 this h
  /\ add_uint64 hw v this h = add hw (be_bytes 8 v) 8 this h
  /\ add_float hw v this h
     = add hw (match host_order hw with
               | BigEndian => be_bytes 4 v
               | LittleEndian => reverse (be_bytes 4 v)
               end) 4 this h
  /\ add_double hw v this h
     = add hw (match host_order hw with
               | BigEndian => be_bytes 8 v
               | LittleEndian => reverse (be_bytes 8 v)
               end) 8 this h.
Proof.
  unfold add_uint32, add_uint64, add_float, add_double, add, htobe32, htobe64.
  rewrite !object_bytes_htobe. do 2 (split; [reflexivity|]).
  unfold object_bytes. destruct (host_order hw); [|done].
  by rewrite !le_bytes_reverse.
Qed.

(** ** After a move *)


(** ** Ownership across a program *)

Lemma owned_cons this vars :
  owned (this :: vars)
  = match _buffer this with Some b => b :: owned vars | None => owned vars end.
Proof. reflexivity. Qed.

Lemma owned_snoc vars this :
  owned (vars ++ [this])
  = owned vars ++ match _buffer this with Some b => [b] | None => [] end.
Proof. unfold owned. rewrite omap_app. cbn. by destruct (_buffer this). Qed.

(** Replacing a buffer by one that owns the same block. *)
Lemma owned_insert_same vars : forall i this this',
  vars !! i = Some this -> _buffer this' = _buffer this ->
  owned (<[i := this']> vars) = owned vars.
Proof.
  induction vars as [|x vars IH]; intros [|i] this this' Hi Hb; try discriminate.
  - cbn in Hi. injection Hi as ->. cbn [insert list_insert]. by rewrite !owned_cons, Hb.
  - change (<[S i := this']> (x :: vars)) with (x :: <[i := this']> vars).
    rewrite !owned_cons. by rewrite (IH i this this' Hi Hb).
Qed.

(** Emptying a buffer and handing its block to a new last one. *)
Lemma owned_move vars : forall i that husk this,
  vars !! i = Some that -> _buffer husk = None -> _buffer this = _buffer that ->
  owned (<[i := husk]> vars ++ [this]) ≡ₚ owned vars.
Proof.
  induction vars as [|x vars IH]; intros [|i] that husk this Hi Hh Hb; try discriminate.
  - cbn in Hi. injection Hi as ->. cbn [insert list_insert app].
    rewrite !owned_cons, owned_snoc, Hh, Hb.
    destruct (_buffer that); [|by rewrite app_nil_r].
    by rewrite <- Permutation_cons_append.
  - change (<[S i := husk]> (x :: vars) ++ [this])
      with (x :: (<[i := husk]> vars ++ [this])).
    rewrite !owned_cons.
    destruct (_buffer x); by rewrite (IH i that husk this Hi Hh Hb).
Qed.

(** Different buffers of a program own different blocks. *)
Lemma owned_distinct vars : forall i j this that b,
  NoDup (owned vars) ->
  vars !! i = Some this -> vars !! j = Some that -> i <> j ->
  _buffer this = Some b -> _buffer that <> Some b.
Proof.
  induction vars as [|x vars IH]; intros [|i] [|j] this that b Hnd Hi Hj Hne Hb Hb';
    try discriminate; try done; cbn in Hi, Hj; rewrite owned_cons in Hnd.
  - injection Hi as ->. rewrite Hb in Hnd. apply NoDup_cons in Hnd as [Hnotin _].
    apply Hnotin, list_elem_of_omap. exists that. split; [|done].
    by eapply list_elem_of_lookup_2.
  - injection Hj as ->. rewrite Hb' in Hnd. apply NoDup_cons in Hnd as [Hnotin _].
    apply Hnotin, list_elem_of_omap. exists this. split; [|done].
    by eapply list_elem_of_lookup_2.
  - assert (Hnd' : NoDup (owned vars)).
    { destruct (_buffer x); [by apply NoDup_cons in Hnd as [_ ?]|done]. }
    eapply (IH i j this that b Hnd' Hi Hj); [lia|done|done].
Qed.

(** Every step keeps the blocks of the heap and their owners in one-to-one
    correspondence. *)
Lemma step_ownership hw a w w' :
  world_ok w -> ownership w -> step hw a w = Some w' -> ownership w'.
Proof.
  unfold world_ok, ownership. destruct w as [h vars]. cbn [w_heap w_vars].
  intros Hw [Hnd Hdom].
  assert (Hfresh : fresh (dom h) ∉ owned vars).
  { intros Hin. apply Hdom in Hin as [cs Hcs]. by rewrite fresh_block_dead in Hcs. }
  destruct a as [capacity|i|i|i op]; cbn [step w_heap w_vars]; intros Hstep.
  - (* construction *)
    unfold OutBuffer_new, new_array in Hstep. injection Hstep as <-.
    cbn [w_heap w_vars]. rewrite owned_snoc. cbn [_buffer]. split.
    + apply NoDup_app. split; [done|]. split; [|apply NoDup_singleton].
      intros b Hb ->%list_elem_of_singleton. done.
    + intros b. rewrite elem_of_app, list_elem_of_singleton, lookup_insert_is_Some, Hdom.
      destruct (decide (fresh (dom h) = b)) as [<-|Hne]; intuition congruence.
  - (* copy *)
    destruct (vars !! i) as [that|] eqn:Hi; [|discriminate].
    cbn [mbind option_bind] in Hstep.
    destruct (OutBuffer_copy that h) as [[this h1]|] eqn:Hcopy; [|discriminate].
    cbn [mbind option_bind] in Hstep. injection Hstep as <-. cbn [w_heap w_vars].
    pose proof (Forall_lookup_1 _ _ _ _ Hw Hi) as Hthat.
    pose proof (OutBuffer_copy_Some _ _ _ _ Hthat Hcopy) as Hlive.
    destruct (OutBuffer_copy_live _ _ Hlive) as (b0 & cs & _ & _ & _ & Hres).
    rewrite Hcopy in Hres. injection Hres as -> ->.
    rewrite owned_snoc. cbn [_buffer]. split.
    + apply NoDup_app. split; [done|]. split; [|apply NoDup_singleton].
      intros b Hb ->%list_elem_of_singleton. done.
    + intros b. rewrite elem_of_app, list_elem_of_singleton, lookup_insert_is_Some, Hdom.
      destruct (decide (fresh (dom h) = b)) as [<-|Hne]; intuition congruence.
  - (* move *)
    destruct (vars !! i) as [that|] eqn:Hi; [|discriminate].
    cbn [mbind option_bind OutBuffer_move] in Hstep. injection Hstep as <-.
    cbn [w_heap w_vars].
    assert (Hp := owned_move vars i that
              {| _buffer := None; _current := Null; _size := 0; _capacity := 0 |}
              {| _buffer := _buffer that; _current := _current that;
                 _size := _size that; _capacity := _capacity that |}
              Hi eq_refl eq_refl).
    split; [by rewrite Hp|]. intros b. by rewrite Hp.
  - (* append *)
    destruct (vars !! i) as [this|] eqn:Hi; [|discriminate].
    cbn [mbind option_bind] in Hstep.
    destruct (add_operand hw op this h) as [[this' h1]|] eqn:Hadd; [|discriminate].
    cbn [mbind option_bind] in Hstep. injection Hstep as <-. cbn [w_heap w_vars].
    pose proof (Forall_lookup_1 _ _ _ _ Hw Hi) as Hthis.
    rewrite add_operand_append in Hadd.
    destruct (append_frame _ _ _ _ _ _ _ Hthis Hadd) as (_ & _ & Hd).
    destruct (append_inv _ _ _ _ _ _ _ Hthis Hadd)
      as (b & cs & Hb & _ & _ & _ & _ & _ & _ & Hthis' & _).
    rewrite (owned_insert_same vars i this this' Hi) by (by rewrite Hthis', Hb).
    split; [done|]. intros b'. rewrite Hdom, <- !elem_of_dom, Hd. done.
Qed.

Lemma run_ownership hw acts : forall w w',
  Forall typed acts -> world_ok w -> ownership w ->
  run hw acts w = Some w' -> world_ok w' /\ ownership w'.
Proof.
  induction acts as [|a acts IH]; intros w w' Hty Hw Hown Hrun.
  - cbn in Hrun. by injection Hrun as <-.
  - apply Forall_cons in Hty as [Ha Hty]. cbn [run] in Hrun.
    destruct (step hw a w) as [w1|] eqn:Hstep; [|discriminate].
    cbn [mbind option_bind] in Hrun.
    eapply IH; [exact Hty| | |exact Hrun].
    + by eapply step_ok.
    + by eapply step_ownership.
Qed.

Lemma empty_world_ownership : world_ok (World ∅ []) /\ ownership (World ∅ []).
Proof.
  split; [constructor|]. split; [constructor|].
  intros b. cbn. rewrite lookup_empty. split; [by intros ?%elem_of_nil|by intros [? ?]].
Qed.

(** X12: in every state a program reaches from nothing by constructing,
    copying, moving and appending, no block is owned by two buffers and
    every block of the heap is owned by one: copies get blocks of their own,
    a move leaves its source without one, and nothing is lost. *)
Theorem reachable_ownership hw (acts : list action) (w : world) :
  Forall typed acts ->
  run hw acts (World ∅ []) = Some w ->
  NoDup (owned (w_vars w))
  /\ (forall b, b ∈ owned (w_vars w) <-> is_Some (w_heap w !! b))
  /\ (forall i j this that b,
        w_vars w !! i = Some this -> w_vars w !! j = Some that -> i <> j ->
        _buffer this = Some b -> _buffer that <> Some b).
Proof.
  intros Hty Hrun.
  destruct empty_world_ownership as [Hw0 Hown0].
  destruct (run_ownership hw acts _ _ Hty Hw0 Hown0 Hrun) as [_ [Hnd Hdom]].
  split; [exact Hnd|]. split; [exact Hdom|].
  intros i j this that b. by apply owned_distinct.
Qed.

Lemma reachable_ownership_witness :
  NoDup (owned (w_vars sample_world))
  /\ (forall b, b ∈ owned (w_vars sample_world) <-> is_Some (w_heap sample_world !! b))
  /\ (forall i j this that b,
        w_vars sample_world !! i = Some this ->
        w_vars sample_world !! j = Some that -> i <> j ->
        _buffer this = Some b -> _buffer that <> Some b).
Proof.
  apply (reachable_ownership x86_64 sample_program sample_world).
  - repeat constructor; cbn; lia.
  - vm_compute. reflexivity.
Defined.

(** Destroying buffers that own distinct live blocks is defined and removes
    exactly those blocks. *)
Lemma destroy_each_owned vars : forall h,
  NoDup (owned vars) ->
  (forall b, b ∈ owned vars -> is_Some (h !! b)) ->
  exists h',
    destroy_each vars h = Some h'
    /\ forall b, (b ∈ owned vars -> h' !! b = None)
                 /\ (b ∉ owned vars -> h' !! b = h !! b).
Proof.
  induction vars as [|this vars IH]; intros h Hnd Hlive.
  - exists h. split; [reflexivity|]. intros b. split; [|done].
    by intros ?%elem_of_nil.
  - rewrite owned_cons in Hnd, Hlive. cbn [destroy_each]. unfold OutBuffer_destroy.
    rewrite owned_cons. destruct (_buffer this) as [b0|].
    + apply NoDup_cons in Hnd as [Hnotin Hnd].
      destruct (Hlive b0) as [cs0 Hcs0]; [by left|].
      unfold delete_array. rewrite Hcs0. cbn [mbind option_bind].
      destruct (IH (delete b0 h) Hnd) as (h' & Hrun & Hh').
      { intros b Hb. rewrite lookup_delete_ne by congruence. apply Hlive. by right. }
      exists h'. split; [exact Hrun|]. intros b. destruct (Hh' b) as [Hin Hout].
      split.
      * intros [->|Hb]%elem_of_cons; [|by apply Hin].
        rewrite Hout by done. apply lookup_delete_eq.
      * intros Hb. rewrite elem_of_cons in Hb.
        rewrite Hout by intuition. apply lookup_delete_ne. intuition.
    + cbn [mbind option_bind]. by apply IH.
Qed.

(** X13: leaving the scope is safe and leaks nothing.  In every state a
    program reaches from nothing, destroying all its buffers in reverse
    order of declaration is defined (no block is released twice, moved-from
    buffers release nothing) and ends with the empty heap. *)
Theorem leave_scope_frees_all hw (acts : list action) (w : world) :
  Forall typed acts ->
  run hw acts (World ∅ []) = Some w ->
  leave_scope w = Some ∅.
Proof.
  intros Hty Hrun.
  destruct empty_world_ownership as [Hw0 Hown0].
  destruct (run_ownership hw acts _ _ Hty Hw0 Hown0 Hrun) as [_ [Hnd Hdom]].
  assert (Hp : owned (reverse (w_vars w)) ≡ₚ owned (w_vars w)).
  { unfold owned. by rewrite reverse_Permutation. }
  destruct (destroy_each_owned (reverse (w_vars w)) (w_heap w)) as (h' & Hd & Hh').
  - by rewrite Hp.
  - intros b Hb. apply Hdom. by rewrite <- Hp.
  - unfold leave_scope. rewrite Hd. f_equal. apply map_empty. intros b.
    destruct (Hh' b) as [Hin Hout].
    destruct (decide (b ∈ owned (reverse (w_vars w)))) as [Hb|Hb]; [by apply Hin|].
    rewrite Hout by done. rewrite Hp, Hdom in Hb. by apply eq_None_not_Some.
Qed.

Lemma leave_scope_frees_all_witness : leave_scope sample_world = Some ∅.
Proof.
  apply (leave_scope_frees_all x86_64 sample_program sample_world).
  - repeat constructor; cbn; lia.
  - vm_compute. reflexivity.
Defined.

(** X14: a step of a program changes one buffer at most.  Constructing and
    copying change none of the existing buffers, moving changes its source,
    appending its target; every other buffer is the same object afterwards
    and holds the same bytes. *)
Theorem step_frame hw (acts : list action) (w : world) a w' j that :
  Forall typed acts ->
  run hw acts (World ∅ []) = Some w ->
  step hw a w = Some w' ->
  target a <> Some j ->
  w_vars w !! j = Some that ->
  w_vars w' !! j = Some that
  /\ contents that (w_heap w') = contents that (w_heap w).
Proof.
  intros Hty Hrun Hstep Htarget Hj.
  destruct empty_world_ownership as [Hw0 Hown0].
  destruct (run_ownership hw acts _ _ Hty Hw0 Hown0 Hrun) as [Hw [Hnd Hdom]].
  destruct w as [h vars]. unfold world_ok in Hw. cbn [w_heap w_vars] in *.
  pose proof (Forall_lookup_1 _ _ _ _ Hw Hj) as Hthat.
  assert (Hfresh : forall b, _buffer that = Some b -> b <> fresh (dom h)).
  { intros b Hb. destruct Hthat as (_ & _ & Hown). rewrite Hb in Hown.
    destruct Hown as (cs & Hcs & _). by eapply live_block_not_fresh. }
  destruct a as [capacity|i|i|i op]; cbn [step target w_heap w_vars] in *.
  - unfold OutBuffer_new, new_array in Hstep. injection Hstep as <-.
    cbn [w_heap w_vars]. split; [by apply lookup_app_l_Some|].
    apply contents_ext. intros b Hb. apply lookup_insert_ne. symmetry. by apply Hfresh.
  - destruct (vars !! i) as [src|] eqn:Hi; [|discriminate].
    cbn [mbind option_bind] in Hstep.
    destruct (OutBuffer_copy src h) as [[this h1]|] eqn:Hcopy; [|discriminate].
    cbn [mbind option_bind] in Hstep. injection Hstep as <-. cbn [w_heap w_vars].
    split; [by apply lookup_app_l_Some|].
    pose proof (Forall_lookup_1 _ _ _ _ Hw Hi) as Hsrc.
    pose proof (OutBuffer_copy_Some _ _ _ _ Hsrc Hcopy) as Hlive.
    destruct (OutBuffer_copy_live _ _ Hlive) as (b0 & cs & _ & _ & _ & Hres).
    rewrite Hcopy in Hres. injection Hres as _ ->.
    apply contents_ext. intros b Hb. apply lookup_insert_ne. symmetry. by apply Hfresh.
  - destruct (vars !! i) as [src|] eqn:Hi; [|discriminate].
    cbn [mbind option_bind OutBuffer_move] in Hstep. injection Hstep as <-.
    cbn [w_heap w_vars]. split; [|reflexivity].
    apply lookup_app_l_Some. rewrite list_lookup_insert_ne by congruence. exact Hj.
  - destruct (vars !! i) as [this|] eqn:Hi; [|discriminate].
    cbn [mbind option_bind] in Hstep.
    destruct (add_operand hw op this h) as [[this' h1]|] eqn:Hadd; [|discriminate].
    cbn [mbind option_bind] in Hstep. injection Hstep as <-. cbn [w_heap w_vars].
    split; [by rewrite list_lookup_insert_ne by congruence|].
    pose proof (Forall_lookup_1 _ _ _ _ Hw Hi) as Hthis.
    rewrite add_operand_append in Hadd.
    destruct (append_frame _ _ _ _ _ _ _ Hthis Hadd) as (Hfr & _).
    apply contents_ext. intros b Hb. apply Hfr. intros Hb'.
    eapply (owned_distinct vars i j this that b); try done. congruence.
Qed.

Lemma step_frame_witness :
  w_vars (default sample_world (step x86_64 (AddTo 2 (UInt8 5)) sample_world)) !! 1%nat
  = Some {| _buffer := Some 2%positive; _current := Ptr 2%positive 4;
            _size := 4; _capacity := 4 |}
  /\ contents {| _buffer := Some 2%positive; _current := Ptr 2%positive 4;
                 _size := 4; _capacity := 4 |}
              (w_heap (default sample_world
                         (step x86_64 (AddTo 2 (UInt8 5)) sample_world)))
     = contents {| _buffer := Some 2%positive; _current := Ptr 2%positive 4;
                   _size := 4; _capacity := 4 |} (w_heap sample_world).
Proof.
  apply (step_frame x86_64 sample_program sample_world (AddTo 2 (UInt8 5))).
  - repeat constructor; cbn; lia.
  - vm_compute. reflexivity.
  - vm_compute. reflexivity.
  - discriminate.
  - vm_compute. reflexivity.
Defined.
